(** * R1 Playground: the tabular Q-learning engine of [src/app/page.tsx]

    A shallow embedding of the grid world, the epsilon-greedy policy, the
    temporal-difference update, the greedy path walk and the React state the
    component keeps, followed by the properties of the engine.

    JavaScript numbers are IEEE 754 binary64 values: they are modelled by
    Rocq's primitive floats, whose operations are the same IEEE operations.
    Grid coordinates and counters only ever hold small integers and are
    modelled by [Z].  An uncaught [TypeError] (reading a property of
    [undefined]) is the [None] of the option monad. *)

From Stdlib Require Import Floats ZArith Lia Ascii.
From stdpp Require Import gmap strings list pretty.
Set Warnings "-inexact-float".

(** ** JavaScript numbers *)

Module JS.

(** [ToBoolean] on a number: [+0], [-0] and [NaN] are falsy. *)
Definition ToBoolean (x : float) : bool := negb (is_zero x || is_nan x).

(** [v || 0], where [v] is a number or [undefined] ([None]). *)
Definition or0 (v : option float) : float :=
  match v with
  | Some x => if ToBoolean x then x else 0%float
  | None => 0%float
  end.

Definition is_pos_zero (x : float) : bool := is_zero x && negb (get_sign x).
Definition is_neg_zero (x : float) : bool := is_zero x && get_sign x.

(** The loop of [Math.max]: a [NaN] argument makes the result [NaN], [+0]
    counts as larger than [-0], otherwise [number > highest] decides. *)
Fixpoint Math_max_from (highest : float) (numbers : list float) : float :=
  match numbers with
  | [] => highest
  | number :: rest =>
      if is_nan number then nan
      else if is_pos_zero number && is_neg_zero highest then Math_max_from 0%float rest
      else if (highest <? number)%float then Math_max_from number rest
      else Math_max_from highest rest
  end.

Definition Math_max (numbers : list float) : float :=
  Math_max_from neg_infinity numbers.

(** [Math.floor x] as an array index: the integer below a finite [x];
    [NaN] and the infinities index nothing. *)
Definition Math_floor (x : float) : option Z :=
  match Prim2SF x with
  | S754_zero _ => Some 0%Z
  | S754_finite s m e =>
      let n := if s then Z.neg m else Z.pos m in
      Some (if (0 <=? e)%Z then n * 2 ^ e else n / 2 ^ (- e))%Z
  | S754_infinity _ | S754_nan => None
  end.

(** [arr[i]] for an integer-valued [i]: [undefined] out of range. *)
Definition index {A} (arr : list A) (i : Z) : option A :=
  if (i <? 0)%Z then None else arr !! Z.to_nat i.

(** [`${n}`] for an integer [n]. *)
Definition toString (n : Z) : string := pretty n.

End JS.

(** ** Type definitions (lines 8-34) *)

Definition Position : Type := Z * Z.

Inductive Action := Up | Down | Left | Right.

Inductive CellType := Empty | Start | Gem | Skull.

Definition Grid : Type := list (list CellType).

#[global] Instance Action_eq_dec : EqDecision Action.
Proof. solve_decision. Defined.

Definition Action_code (a : Action) : nat :=
  match a with Up => 0 | Down => 1 | Left => 2 | Right => 3 end.

Definition Action_of_code (n : nat) : Action :=
  match n with 0 => Up | 1 => Down | 2 => Left | _ => Right end.

#[global] Instance Action_countable : Countable Action.
Proof.
  refine (inj_countable' Action_code Action_of_code _).
  intros []; reflexivity.
Defined.

#[global] Instance CellType_eq_dec : EqDecision CellType.
Proof. solve_decision. Defined.

(** The value object of one state: action name to number. *)
Abbreviation ActionValues := (gmap Action float).

(** [QTableState]: state key to the state's action values. *)
Abbreviation QTableState := (gmap string (gmap Action float)).

(** The fields of [PathStep] and [SavedPath] carry a prefix, [ps_] and
    [sp_], to keep them apart from the state variables of the component. *)
Record PathStep := {
  ps_position : Position;
  ps_action : Action;
  ps_reward : float;
}.

Record SavedPath := {
  sp_id : string;
  sp_name : string;
  sp_steps : list PathStep;
  sp_totalReward : float;
  sp_timestamp : Z;
}.

Definition GRID_SIZE : Z := 5.
Definition ACTIONS : list Action := [Up; Down; Left; Right].

(** ** Q-learning parameters (lines 38-42) *)

Definition alpha : float := 0.1%float.
Definition gamma : float := 0.9%float.
Definition initialEpsilon : float := 0.2%float.
Definition epsilonDecay : float := 0.995%float.
Definition minEpsilon : float := 0.01%float.

(** ** Environment (lines 63-103) *)

(** [newGrid[r][c] = cell] on an array of distinct rows. *)
Definition setCell (r c : nat) (cell : CellType) (g : Grid) : Grid :=
  alter (fun row => <[c := cell]> row) r g.

Definition initializeGrid : Grid :=
  let newGrid := replicate (Z.to_nat GRID_SIZE) (replicate (Z.to_nat GRID_SIZE) Empty) in
  let newGrid := setCell 0 0 Start newGrid in
  let newGrid := setCell 4 4 Gem newGrid in
  let newGrid := setCell 2 2 Skull newGrid in
  let newGrid := setCell 1 3 Skull newGrid in
  let newGrid := setCell 3 1 Skull newGrid in
  newGrid.

Definition getStateKey (pos : Position) : string :=
  JS.toString pos.1 +:+ "," +:+ JS.toString pos.2.

Definition getNextPosition (pos : Position) (action : Action) : Position :=
  let '(x, y) := pos in
  match action with
  | Up => (Z.max (x - 1) 0, y)
  | Down => (Z.min (x + 1) (GRID_SIZE - 1), y)
  | Left => (x, Z.max (y - 1) 0)
  | Right => (x, Z.min (y + 1) (GRID_SIZE - 1))
  end.

(** [grid[pos[0]][pos[1]]]: a missing row is a [TypeError] ([None]); a
    missing column of an existing row is [undefined] ([Some None]). *)
Definition cellAt (grid : Grid) (pos : Position) : option (option CellType) :=
  row ← JS.index grid pos.1;
  Some (JS.index row pos.2).

Definition getReward (grid : Grid) (pos : Position) : option float :=
  if decide (length grid = 0) then Some 0%float
  else
    cellType ← cellAt grid pos;
    Some (if decide (cellType = Some Gem) then 10%float
          else if decide (cellType = Some Skull) then (-10)%float
          else (-0.1)%float).

Definition isTerminalState (grid : Grid) (pos : Position) : option bool :=
  if decide (length grid = 0) then Some false
  else
    cellType ← cellAt grid pos;
    Some (bool_decide (cellType = Some Gem) || bool_decide (cellType = Some Skull)).

(** ** Policy (lines 105-130) *)

(** [entry = {}; ACTIONS.forEach(a => entry[a] = 0)] *)
Definition zeroEntry : gmap Action float :=
  foldl (fun entry a => <[a := 0%float]> entry) ∅ ACTIONS.

(** [if (!table[stateKey]) { table[stateKey] = {}; ... }]: an entry that
    exists is left as it is, whatever actions it holds. *)
Definition ensureEntry (stateKey : string) (table : QTableState) : QTableState :=
  match table !! stateKey with
  | Some _ => table
  | None => <[stateKey := zeroEntry]> table
  end.

(** The scan both [chooseAction] and [calculateOptimalPath] run over
    [ACTIONS]: [q = entry[action] || 0; if (q > maxQ) { maxQ = q;
    bestAction = action }], from [maxQ = -Infinity], [bestAction = ACTIONS[0]]. *)
Definition scanStep (entry : gmap Action float) (acc : float * Action) (a : Action)
    : float * Action :=
  let '(maxQ, bestAction) := acc in
  let q := JS.or0 (entry !! a) in
  if (maxQ <? q)%float then (q, a) else (maxQ, bestAction).

Definition greedyAction (entry : gmap Action float) : Action :=
  (foldl (scanStep entry) (neg_infinity, Up) ACTIONS).2.

(** The two results of [Math.random()] one call of [chooseAction] may
    consume: the exploration draw and the index draw. *)
Record Random := {
  explore : float;
  pick : float;
}.

(** [ACTIONS.length] as a number. *)
Definition ACTIONS_length : float := 4%float.

(** [chooseAction] returns the action together with the table it has
    mutated.  [None] is an index draw outside [ACTIONS], which
    [Math.random() < 1] rules out. *)
Definition chooseAction (epsilon : float) (rnd : Random) (pos : Position)
    (currentQTable : QTableState) : option (Action * QTableState) :=
  let stateKey := getStateKey pos in
  let currentQTable := ensureEntry stateKey currentQTable in
  if (explore rnd <? epsilon)%float then
    i ← JS.Math_floor (pick rnd * ACTIONS_length)%float;
    a ← JS.index ACTIONS i;
    Some (a, currentQTable)
  else
    entry ← currentQTable !! stateKey;
    Some (greedyAction entry, currentQTable).

(** ** Optimal path (lines 132-164) *)

Definition maxSteps : nat := 50.

(** The [while] loop with [fuel = maxSteps - steps] iterations left; it
    returns the path and the position it stopped at. *)
Fixpoint walk (grid : Grid) (currentQTable : QTableState) (fuel : nat)
    (currentPos : Position) (path : list Position) : option (list Position * Position) :=
  terminal ← isTerminalState grid currentPos;
  if (terminal : bool) then Some (path, currentPos)
  else
    match fuel with
    | O => Some (path, currentPos)
    | S fuel' =>
        let path := path ++ [currentPos] in
        match currentQTable !! getStateKey currentPos with
        | None => Some (path, currentPos)
        | Some entry =>
            walk grid currentQTable fuel' (getNextPosition currentPos (greedyAction entry)) path
        end
    end.

(** The body of [calculateOptimalPath], for the [grid] its
    [isTerminalState] reads. *)
Definition calculateOptimalPathIn (grid : Grid) (currentQTable : QTableState)
    : option (list Position) :=
  '(path, currentPos) ← walk grid currentQTable maxSteps (0, 0)%Z [];
  terminal ← isTerminalState grid currentPos;
  Some (if (terminal : bool) then path ++ [currentPos] else path).

(** The grid of the first render: [useState<Grid>([])]. *)
Definition mountGrid : Grid := [].

(** [calculateOptimalPath] is [useCallback(..., [])]: with no dependencies
    React keeps the function object of the first render for the life of the
    component, and that closure's [isTerminalState] reads the first render's
    [grid], which is [mountGrid]. *)
Definition calculateOptimalPath (currentQTable : QTableState) : option (list Position) :=
  calculateOptimalPathIn mountGrid currentQTable.

(** ** Component state (lines 38-60) *)

(** The [useState] cells of [RLPlayground], and the number of
    [setTimeout] callbacks [step] has scheduled that have not fired yet. *)
Record State := {
  epsilon : float;
  grid : Grid;
  agentPos : Position;
  qTable : QTableState;
  isRunning : bool;
  currentPath : list PathStep;
  optimalPath : list Position;
  savedPaths : list SavedPath;
  showOptimalPath : bool;
  stepCount : Z;
  episodeCount : Z;
  totalReward : float;
  bestEpisodeReward : float;
  pendingResets : nat;
}.

(** The initial value of every [useState]. *)
Definition initialState : State := {|
  epsilon := initialEpsilon;
  grid := mountGrid;
  agentPos := (0, 0)%Z;
  qTable := ∅;
  isRunning := false;
  currentPath := [];
  optimalPath := [];
  savedPaths := [];
  showOptimalPath := false;
  stepCount := 0;
  episodeCount := 0;
  totalReward := 0%float;
  bestEpisodeReward := neg_infinity;
  pendingResets := 0;
|}.

(** The state setters; [st |> setX v |> setY w] runs them in order. *)
Definition setEpsilon (v : float) (st : State) : State := {|
  epsilon := v;
  grid := grid st;
  agentPos := agentPos st;
  qTable := qTable st;
  isRunning := isRunning st;
  currentPath := currentPath st;
  optimalPath := optimalPath st;
  savedPaths := savedPaths st;
  showOptimalPath := showOptimalPath st;
  stepCount := stepCount st;
  episodeCount := episodeCount st;
  totalReward := totalReward st;
  bestEpisodeReward := bestEpisodeReward st;
  pendingResets := pendingResets st;
|}.

Definition setGrid (v : Grid) (st : State) : State := {|
  epsilon := epsilon st;
  grid := v;
  agentPos := agentPos st;
  qTable := qTable st;
  isRunning := isRunning st;
  currentPath := currentPath st;
  optimalPath := optimalPath st;
  savedPaths := savedPaths st;
  showOptimalPath := showOptimalPath st;
  stepCount := stepCount st;
  episodeCount := episodeCount st;
  totalReward := totalReward st;
  bestEpisodeReward := bestEpisodeReward st;
  pendingResets := pendingResets st;
|}.

Definition setAgentPos (v : Position) (st : State) : State := {|
  epsilon := epsilon st;
  grid := grid st;
  agentPos := v;
  qTable := qTable st;
  isRunning := isRunning st;
  currentPath := currentPath st;
  optimalPath := optimalPath st;
  savedPaths := savedPaths st;
  showOptimalPath := showOptimalPath st;
  stepCount := stepCount st;
  episodeCount := episodeCount st;
  totalReward := totalReward st;
  bestEpisodeReward := bestEpisodeReward st;
  pendingResets := pendingResets st;
|}.

Definition setQTable (v : QTableState) (st : State) : State := {|
  epsilon := epsilon st;
  grid := grid st;
  agentPos := agentPos st;
  qTable := v;
  isRunning := isRunning st;
  currentPath := currentPath st;
  optimalPath := optimalPath st;
  savedPaths := savedPaths st;
  showOptimalPath := showOptimalPath st;
  stepCount := stepCount st;
  episodeCount := episodeCount st;
  totalReward := totalReward st;
  bestEpisodeReward := bestEpisodeReward st;
  pendingResets := pendingResets st;
|}.

Definition setIsRunning (v : bool) (st : State) : State := {|
  epsilon := epsilon st;
  grid := grid st;
  agentPos := agentPos st;
  qTable := qTable st;
  isRunning := v;
  currentPath := currentPath st;
  optimalPath := optimalPath st;
  savedPaths := savedPaths st;
  showOptimalPath := showOptimalPath st;
  stepCount := stepCount st;
  episodeCount := episodeCount st;
  totalReward := totalReward st;
  bestEpisodeReward := bestEpisodeReward st;
  pendingResets := pendingResets st;
|}.

Definition setCurrentPath (v : list PathStep) (st : State) : State := {|
  epsilon := epsilon st;
  grid := grid st;
  agentPos := agentPos st;
  qTable := qTable st;
  isRunning := isRunning st;
  currentPath := v;
  optimalPath := optimalPath st;
  savedPaths := savedPaths st;
  showOptimalPath := showOptimalPath st;
  stepCount := stepCount st;
  episodeCount := episodeCount st;
  totalReward := totalReward st;
  bestEpisodeReward := bestEpisodeReward st;
  pendingResets := pendingResets st;
|}.

Definition setOptimalPath (v : list Position) (st : State) : State := {|
  epsilon := epsilon st;
  grid := grid st;
  agentPos := agentPos st;
  qTable := qTable st;
  isRunning := isRunning st;
  currentPath := currentPath st;
  optimalPath := v;
  savedPaths := savedPaths st;
  showOptimalPath := showOptimalPath st;
  stepCount := stepCount st;
  episodeCount := episodeCount st;
  totalReward := totalReward st;
  bestEpisodeReward := bestEpisodeReward st;
  pendingResets := pendingResets st;
|}.

Definition setSavedPaths (v : list SavedPath) (st : State) : State := {|
  epsilon := epsilon st;
  grid := grid st;
  agentPos := agentPos st;
  qTable := qTable st;
  isRunning := isRunning st;
  currentPath := currentPath st;
  optimalPath := optimalPath st;
  savedPaths := v;
  showOptimalPath := showOptimalPath st;
  stepCount := stepCount st;
  episodeCount := episodeCount st;
  totalReward := totalReward st;
  bestEpisodeReward := bestEpisodeReward st;
  pendingResets := pendingResets st;
|}.

Definition setShowOptimalPath (v : bool) (st : State) : State := {|
  epsilon := epsilon st;
  grid := grid st;
  agentPos := agentPos st;
  qTable := qTable st;
  isRunning := isRunning st;
  currentPath := currentPath st;
  optimalPath := optimalPath st;
  savedPaths := savedPaths st;
  showOptimalPath := v;
  stepCount := stepCount st;
  episodeCount := episodeCount st;
  totalReward := totalReward st;
  bestEpisodeReward := bestEpisodeReward st;
  pendingResets := pendingResets st;
|}.

Definition setStepCount (v : Z) (st : State) : State := {|
  epsilon := epsilon st;
  grid := grid st;
  agentPos := agentPos st;
  qTable := qTable st;
  isRunning := isRunning st;
  currentPath := currentPath st;
  optimalPath := optimalPath st;
  savedPaths := savedPaths st;
  showOptimalPath := showOptimalPath st;
  stepCount := v;
  episodeCount := episodeCount st;
  totalReward := totalReward st;
  bestEpisodeReward := bestEpisodeReward st;
  pendingResets := pendingResets st;
|}.

Definition setEpisodeCount (v : Z) (st : State) : State := {|
  epsilon := epsilon st;
  grid := grid st;
  agentPos := agentPos st;
  qTable := qTable st;
  isRunning := isRunning st;
  currentPath := currentPath st;
  optimalPath := optimalPath st;
  savedPaths := savedPaths st;
  showOptimalPath := showOptimalPath st;
  stepCount := stepCount st;
  episodeCount := v;
  totalReward := totalReward st;
  bestEpisodeReward := bestEpisodeReward st;
  pendingResets := pendingResets st;
|}.

Definition setTotalReward (v : float) (st : State) : State := {|
  epsilon := epsilon st;
  grid := grid st;
  agentPos := agentPos st;
  qTable := qTable st;
  isRunning := isRunning st;
  currentPath := currentPath st;
  optimalPath := optimalPath st;
  savedPaths := savedPaths st;
  showOptimalPath := showOptimalPath st;
  stepCount := stepCount st;
  episodeCount := episodeCount st;
  totalReward := v;
  bestEpisodeReward := bestEpisodeReward st;
  pendingResets := pendingResets st;
|}.

Definition setBestEpisodeReward (v : float) (st : State) : State := {|
  epsilon := epsilon st;
  grid := grid st;
  agentPos := agentPos st;
  qTable := qTable st;
  isRunning := isRunning st;
  currentPath := currentPath st;
  optimalPath := optimalPath st;
  savedPaths := savedPaths st;
  showOptimalPath := showOptimalPath st;
  stepCount := stepCount st;
  episodeCount := episodeCount st;
  totalReward := totalReward st;
  bestEpisodeReward := v;
  pendingResets := pendingResets st;
|}.

Definition setPendingResets (v : nat) (st : State) : State := {|
  epsilon := epsilon st;
  grid := grid st;
  agentPos := agentPos st;
  qTable := qTable st;
  isRunning := isRunning st;
  currentPath := currentPath st;
  optimalPath := optimalPath st;
  savedPaths := savedPaths st;
  showOptimalPath := showOptimalPath st;
  stepCount := stepCount st;
  episodeCount := episodeCount st;
  totalReward := totalReward st;
  bestEpisodeReward := bestEpisodeReward st;
  pendingResets := v;
|}.

Definition pipe {A B} (x : A) (f : A → B) : B := f x.
Infix "|>" := pipe (at level 45, left associativity, only parsing).

(** The mount effect: [setGrid(initializeGrid())]. *)
Definition mount (st : State) : State := st |> setGrid initializeGrid.

(** ** Saved paths (lines 166-179) *)

(** [path.reduce((sum, step) => sum + step.reward, 0)] *)
Definition sumRewards (path : list PathStep) : float :=
  foldl (fun sum step => (sum + ps_reward step)%float) 0%float path.

(** [now] is the value of [Date.now()], [date] that of [new Date()]. *)
Definition saveCurrentPath (now date : Z) (st : State) : State :=
  if decide (length (currentPath st) = 0) then st
  else
    let pathReward := sumRewards (currentPath st) in
    let newPath := {|
      sp_id := JS.toString now;
      sp_name := "Path " +:+ JS.toString (Z.of_nat (length (savedPaths st)) + 1);
      sp_steps := currentPath st;
      sp_totalReward := pathReward;
      sp_timestamp := date;
    |} in
    st |> setSavedPaths (savedPaths st ++ [newPath]).

(** ** One simulation step (lines 181-242) *)

(** The Q-learning update, lines 198-214. *)
Definition qLearningUpdate (newQTable : QTableState) (currentState : Position)
    (action : Action) (reward : float) (nextState : Position) : option QTableState :=
  let stateKey := getStateKey currentState in
  let nextStateKey := getStateKey nextState in
  let newQTable := ensureEntry stateKey newQTable in
  let newQTable := ensureEntry nextStateKey newQTable in
  nextEntry ← newQTable !! nextStateKey;
  let maxQNext := JS.Math_max (map (fun a => JS.or0 (nextEntry !! a)) ACTIONS) in
  entry ← newQTable !! stateKey;
  let oldQ := JS.or0 (entry !! action) in
  let newQ := (oldQ + alpha * (reward + gamma * maxQNext - oldQ))%float in
  Some (<[stateKey := <[action := newQ]> entry]> newQTable).

(** [Math.max(prev * epsilonDecay, minEpsilon)] *)
Definition decayEpsilon (prev : float) : float :=
  JS.Math_max [(prev * epsilonDecay)%float; minEpsilon].

(** The end of an episode, lines 220-238; [currentPath] and
    [bestEpisodeReward] are the values the call of [step] closed over. *)
Definition finishEpisode (reward : float) (newQTable : QTableState) (closure st : State)
    : option State :=
  let episodeReward := (sumRewards (currentPath closure) + reward)%float in
  let st :=
    if (bestEpisodeReward closure <? episodeReward)%float
    then st |> setBestEpisodeReward episodeReward
    else st in
  let st := st |> setEpisodeCount (episodeCount st + 1)
               |> setEpsilon (decayEpsilon (epsilon st)) in
  newOptimalPath ← calculateOptimalPath newQTable;
  Some (st |> setOptimalPath newOptimalPath
           |> setPendingResets (S (pendingResets st))).

Definition step (rnd : Random) (st : State) : option State :=
  if decide (length (grid st) = 0) then Some st
  else
    let newQTable := qTable st in
    let currentState := agentPos st in
    '(action, newQTable) ← chooseAction (epsilon st) rnd currentState newQTable;
    let nextState := getNextPosition currentState action in
    reward ← getReward (grid st) nextState;
    let newStep := {| ps_position := currentState; ps_action := action; ps_reward := reward |} in
    newQTable ← qLearningUpdate newQTable currentState action reward nextState;
    let st' := st |> setCurrentPath (currentPath st ++ [newStep])
                  |> setAgentPos nextState
                  |> setStepCount (stepCount st + 1)
                  |> setTotalReward (totalReward st + reward)%float in
    terminal ← isTerminalState (grid st) nextState;
    st' ← (if (terminal : bool) then finishEpisode reward newQTable st st' else Some st');
    Some (st' |> setQTable newQTable).

(** A [setTimeout] callback of [step] fires: [setAgentPos([0, 0]);
    setCurrentPath([])]. *)
Definition settle (st : State) : State :=
  match pendingResets st with
  | O => st
  | S pending =>
      st |> setAgentPos (0, 0)%Z |> setCurrentPath [] |> setPendingResets pending
  end.

(** ** Controls (lines 254-278 and the buttons) *)

Definition toggleSimulation (st : State) : State :=
  st |> setIsRunning (negb (isRunning st)).

Definition reset (st : State) : State :=
  st |> setIsRunning false
     |> setAgentPos (0, 0)%Z
     |> setQTable ∅
     |> setCurrentPath []
     |> setOptimalPath []
     |> setStepCount 0
     |> setEpisodeCount 0
     |> setTotalReward 0%float
     |> setBestEpisodeReward neg_infinity
     |> setEpsilon 0.2%float
     |> setGrid initializeGrid.

(** [Object.keys(qTable).length > 0] is [qTable ≠ ∅]. *)
Definition showOptimalRoute (st : State) : option State :=
  if decide (qTable st = ∅) then Some st
  else
    path ← calculateOptimalPath (qTable st);
    Some (st |> setOptimalPath path |> setShowOptimalPath true).

(** The "Hide Path" button: [setShowOptimalPath(false)]. *)
Definition hideOptimalPath (st : State) : State :=
  st |> setShowOptimalPath false.

(** ** The engine as a transition system *)

(** What can happen to the component: the mount effect, a call of [step]
    (button or interval) with its random draws, a timer firing, and the
    other buttons. *)
Inductive Command :=
  | Mount
  | Step (rnd : Random)
  | Settle
  | ToggleSimulation
  | Reset
  | ShowOptimalRoute
  | HideOptimalPath
  | SaveCurrentPath (now date : Z).

Definition exec (c : Command) (st : State) : option State :=
  match c with
  | Mount => Some (mount st)
  | Step rnd => step rnd st
  | Settle => Some (settle st)
  | ToggleSimulation => Some (toggleSimulation st)
  | Reset => Some (reset st)
  | ShowOptimalRoute => showOptimalRoute st
  | HideOptimalPath => Some (hideOptimalPath st)
  | SaveCurrentPath now date => Some (saveCurrentPath now date st)
  end.

Definition run (cs : list Command) (st : State) : option State :=
  foldl (fun acc c => acc ≫= exec c) (Some st) cs.

Inductive reachable : State → Prop :=
  | reachable_initial : reachable initialState
  | reachable_exec st c st' : reachable st → exec c st = Some st' → reachable st'.

(** ** Vocabulary of the specification *)

(** Comparisons of numbers as propositions; [number x] says [x] is not
    [NaN]; [cmp] is the IEEE comparison the primitive tests compute. *)
Definition cmp (x y : float) : option comparison := SFcompare (Prim2SF x) (Prim2SF y).
Definition fle (x y : float) : Prop := (x <=? y)%float = true.
Definition flt (x y : float) : Prop := (x <? y)%float = true.
Definition feq (x y : float) : Prop := (x =? y)%float = true.
Definition number (x : float) : Prop := is_nan x = false.

Definition inBounds (pos : Position) : Prop :=
  (0 ≤ pos.1 ≤ GRID_SIZE - 1)%Z ∧ (0 ≤ pos.2 ≤ GRID_SIZE - 1)%Z.

(** The transition as the specification words it: a fixed displacement per
    action, then each coordinate clamped to [0, GRID_SIZE-1]. *)
Definition displacement (a : Action) : Z * Z :=
  match a with
  | Up => (-1, 0)
  | Down => (1, 0)
  | Left => (0, -1)
  | Right => (0, 1)
  end%Z.

Definition clamp (z : Z) : Z := Z.max 0 (Z.min (GRID_SIZE - 1) z).

Definition transition_spec (pos : Position) (a : Action) : Position :=
  (clamp (pos.1 + (displacement a).1), clamp (pos.2 + (displacement a).2))%Z.

(** The fixed layout. *)
Definition gemCell : Position := (4, 4)%Z.
Definition skullCells : list Position := [(2, 2); (1, 3); (3, 1)]%Z.

(** The first action of [ACTIONS] whose value equals the maximum of the
    four values [s]. *)
Definition firstMaximalAction (s : Action → float) : option Action :=
  List.find (fun a => (s a =? JS.Math_max (map s ACTIONS))%float) ACTIONS.

(** The value [entry[a] || 0] the code compares. *)
Definition qValue (entry : gmap Action float) (a : Action) : float :=
  JS.or0 (entry !! a).

(** The table of the failing walk: the greedy actions lead from the start
    along the top row into the skull at (1,3), whose own entry is all 0. *)
Definition skullTable : QTableState :=
  <[ "0,0" := <[Right := 1%float]> zeroEntry ]>
  (<[ "0,1" := <[Right := 1%float]> zeroEntry ]>
  (<[ "0,2" := <[Right := 1%float]> zeroEntry ]>
  (<[ "0,3" := <[Down := 1%float]> zeroEntry ]>
  (<[ "1,3" := zeroEntry ]> ∅)))).

(** Training runs: [forced a] is a call of [step] whose draws explore and
    pick [a]; [gemEpisode] walks down the left edge and along the bottom
    edge into the gem and lets the reset-to-start timer fire. *)
Definition forced (a : Action) : Command :=
  Step {| explore := 0%float;
          pick := match a with Up => 0 | Down => 0.25 | Left => 0.5 | Right => 0.75 end%float |}.

Definition gemEpisode : list Command :=
  (forced <$> [Down; Down; Down; Down; Right; Right; Right; Right]) ++ [Settle].

Definition training (n : nat) : list Command :=
  Mount :: concat (replicate n gemEpisode).

(** An entry in which [down] and [left] tie for the maximum, and its
    values as a family. *)
Definition tiedEntry : gmap Action float :=
  <[Left := 1%float]> (<[Down := 1%float]> zeroEntry).

Definition tiedValues (a : Action) : float :=
  match a with Down | Left => 1%float | _ => 0%float end.

(** What [reset] promises: the counters, the learning state and the
    trajectories of a fresh engine, on the fixed grid. *)
Definition freshEngine (st : State) : Prop :=
  stepCount st = 0%Z ∧ episodeCount st = 0%Z ∧ totalReward st = 0%float ∧
  epsilon st = 0.2%float ∧ bestEpisodeReward st = neg_infinity ∧
  qTable st = ∅ ∧ currentPath st = [] ∧ optimalPath st = [] ∧
  agentPos st = (0, 0)%Z ∧ grid st = initializeGrid.

(** The exploration rate after [n] completed episodes, and the test that
    the first [n] rates from [e] on are within [0.01, 0.2] and do not grow
    under one more decay. *)
Definition epsilonAfter (n : nat) : float := Nat.iter n decayEpsilon initialEpsilon.

Definition rateOK (e : float) : bool :=
  ((0.01 <=? e) && (e <=? 0.2) && (decayEpsilon e <=? e))%float.

Fixpoint scheduleOK (n : nat) (e : float) : bool :=
  match n with
  | O => true
  | S k => rateOK e && scheduleOK k (decayEpsilon e)
  end.

(** The number of episodes after which the rate rests at its floor. *)
Definition floorEpisode : nat := 600.

(** The statistics panel: epsilon, agent, counters, rewards. *)
Definition observe (st : State) : float * Position * Z * Z * float * float :=
  (epsilon st, agentPos st, stepCount st, episodeCount st, totalReward st,
   bestEpisodeReward st).

(** ** Rendering helpers (lines 280-324, 372) *)

Definition isOnOptimalPath (st : State) (i j : Z) : bool :=
  if negb (showOptimalPath st) then false
  else existsb (fun '(x, y) => bool_decide (x = i) && bool_decide (y = j)) (optimalPath st).

(** [grid[i]?.[j]]: [undefined] when the row or the column is missing. *)
Definition cellTypeAt (grid : Grid) (i j : Z) : option CellType :=
  row ← JS.index grid i;
  JS.index row j.

Definition getCellContent (st : State) (i j : Z) : string :=
  if bool_decide (i = (agentPos st).1) && bool_decide (j = (agentPos st).2) then "🤖"
  else
    match cellTypeAt (grid st) i j with
    | Some Gem => "💎"
    | Some Skull => "☠️"
    | Some Start => "🏁"
    | _ => ""
    end.

Definition baseClasses : string :=
  "w-20 h-20 rounded-lg flex items-center justify-center text-4xl transition-all duration-300 cursor-pointer hover:scale-105 relative".

Definition agentClasses : string :=
  "bg-gradient-to-br from-orange-400 to-orange-600 shadow-lg shadow-orange-500/30 animate-pulse scale-110".

Definition startClasses : string :=
  "bg-gradient-to-br from-blue-400 to-blue-600 shadow-lg shadow-blue-500/30".

Definition gemClasses : string :=
  "bg-gradient-to-br from-green-400 to-green-600 shadow-lg shadow-green-500/30 animate-bounce".

Definition skullClasses : string :=
  "bg-gradient-to-br from-red-400 to-red-600 shadow-lg shadow-red-500/30 animate-pulse".

Definition pathClasses : string :=
  "bg-gradient-to-br from-yellow-200 to-yellow-300 border-2 border-yellow-500".

Definition plainClasses : string := "bg-gray-100 hover:bg-gray-200".

Definition getCellClasses (st : State) (i j : Z) : string :=
  if bool_decide (i = (agentPos st).1) && bool_decide (j = (agentPos st).2)
  then baseClasses +:+ " " +:+ agentClasses
  else
    let cellType := cellTypeAt (grid st) i j in
    let onOptimalPath := isOnOptimalPath st i j in
    let typeClasses :=
      match cellType with
      | Some Start => startClasses
      | Some Gem => gemClasses
      | Some Skull => skullClasses
      | _ => if onOptimalPath then pathClasses else plainClasses
      end in
    baseClasses +:+ " " +:+ typeClasses.

(** The condition of the path dot in the grid markup, line 372:
    [isOnOptimalPath(i, j) && !getCellContent(i, j)]. *)
Definition showsPathDot (st : State) (i j : Z) : bool :=
  isOnOptimalPath st i j && bool_decide (getCellContent st i j = "").

(** ** Vocabulary of the further properties *)

(** A string without a comma. *)
Fixpoint commaFree (s : string) : Prop :=
  match s with
  | EmptyString => True
  | String c s' => c ≠ ","%char ∧ commaFree s'
  end.

(** The 25 cells of the grid, and their keys. *)
Definition gridPositions : list Position :=
  r ← seqZ 0 GRID_SIZE; c ← seqZ 0 GRID_SIZE; [(r, c)].

Definition gridKeys : gset string := list_to_set (getStateKey <$> gridPositions).

(** The three rewards [getReward] hands out on a constructed grid. *)
Definition isReward (r : float) : Prop :=
  r = 10%float ∨ r = (-10)%float ∨ r = (-0.1)%float.

(** An entry that holds a value for each of the four actions. *)
Definition fullEntry (entry : gmap Action float) : Prop :=
  ∀ a, is_Some (entry !! a).

(** Every state of the table is a cell of the grid and has a full entry. *)
Definition wellFormedTable (q : QTableState) : Prop :=
  ∀ k entry, q !! k = Some entry →
    (∃ pos, inBounds pos ∧ k = getStateKey pos) ∧ fullEntry entry.

(** Where a recorded step leads. *)
Definition leadsTo (s : PathStep) : Position :=
  getNextPosition (ps_position s) (ps_action s).

(** A trajectory is a connected walk to [agent]: every step leads to the
    position of the step after it, the last one to [agent]. *)
Definition connectedTo (path : list PathStep) (agent : Position) : Prop :=
  ∀ i s, path !! i = Some s →
    leadsTo s = from_option ps_position agent (path !! S i).

(** Each position of a path follows from the one before it by the greedy
    action of its entry in [q]. *)
Definition greedyChain (q : QTableState) (path : list Position) : Prop :=
  ∀ i p p', path !! i = Some p → path !! S i = Some p' →
    ∃ entry, q !! getStateKey p = Some entry ∧
             p' = getNextPosition p (greedyAction entry).

(** The part of the state learning works on, which the display buttons
    have no business with. *)
Definition learningState (st : State) :=
  (epsilon st, grid st, agentPos st, qTable st, currentPath st,
   stepCount st, episodeCount st, totalReward st, bestEpisodeReward st).

(** The first episode from which on the exploration rate is 0.01. *)
Definition restEpisode : nat := 598.

(** The first [n] rates from [e] on fall strictly and stay above 0.01. *)
Fixpoint fallsFor (n : nat) (e : float) : bool :=
  match n with
  | O => true
  | S k => ((decayEpsilon e <? e) && (0.01 <? e))%float && fallsFor k (decayEpsilon e)
  end.

(** The state after one exploring step to the right on a mounted engine. *)
Definition rightDraw : Random := {| explore := 0%float; pick := 0.75%float |}.

Definition afterRight : State :=
  Eval vm_compute in default initialState (step rightDraw (mount initialState)).

(** A published path is empty, or starts at (0,0), has at most 50
    positions and stays on the grid. *)
Definition pathShape (path : list Position) : Prop :=
  path = [] ∨ (path !! 0 = Some (0, 0)%Z ∧ length path ≤ 50 ∧ Forall inBounds path).

(** A recorded step starts on the grid and carries one of the rewards. *)
Definition recordedStep (s : PathStep) : Prop :=
  inBounds (ps_position s) ∧ isReward (ps_reward s).

(** What every reachable state satisfies. *)
Definition engineInvariant (st : State) : Prop :=
  (grid st = [] ∨ grid st = initializeGrid) ∧
  inBounds (agentPos st) ∧
  wellFormedTable (qTable st) ∧
  Forall recordedStep (currentPath st) ∧
  connectedTo (currentPath st) (agentPos st) ∧
  (0 ≤ episodeCount st ≤ stepCount st)%Z ∧
  (Z.of_nat (length (currentPath st)) ≤ stepCount st)%Z ∧
  pathShape (optimalPath st).

(** The scaled index draw [Math.random() * ACTIONS.length] lies in
    [0, ACTIONS.length). *)
Definition drawInRange (rnd : Random) : Prop :=
  fle 0 (pick rnd * ACTIONS_length)%float ∧
  flt (pick rnd * ACTIONS_length)%float ACTIONS_length.

(** The opposite direction. *)
Definition opposite (a : Action) : Action :=
  match a with Up => Down | Down => Up | Left => Right | Right => Left end.

(** A first episode that ends in the skull at (1,3): along the top row to
    (0,3), then down.  [besideSkull] is the state before the last step,
    [afterSkull] the state after it, the reset-to-start timer still pending. *)
Definition downDraw : Random := {| explore := 0%float; pick := 0.25%float |}.

Definition skullApproach : list Command := Mount :: (forced <$> [Right; Right; Right]).

Definition besideSkull : State :=
  Eval vm_compute in default initialState (run skullApproach initialState).

Definition afterSkull : State :=
  Eval vm_compute in default initialState (step downDraw besideSkull).

(** A table with two visited states, and the last two steps of a
    trajectory into the gem. *)
Definition twoStateTable : QTableState :=
  <[ "0,0" := <[Right := 1%float]> zeroEntry ]>
  (<[ "0,1" := <[Down := 2%float]> (<[Right := 0.5%float]> zeroEntry) ]> ∅).

Definition gemFinish : list PathStep :=
  [ {| ps_position := (4, 2)%Z; ps_action := Right; ps_reward := (-0.1)%float |};
    {| ps_position := (4, 3)%Z; ps_action := Right; ps_reward := 10%float |} ].

(** The way into the gem down the left edge and along the bottom edge,
    and what is seen of a trajectory: the positions recorded, the agent,
    the episode count, epsilon and the reset-to-start timers pending. *)
Definition gemApproach : list Command :=
  Mount :: (forced <$> [Down; Down; Down; Down; Right; Right; Right; Right]).

Definition trajectoryView (st : State)
    : list Position * Position * Z * float * nat :=
  (ps_position <$> currentPath st, agentPos st, episodeCount st, epsilon st,
   pendingResets st).

(** * Properties *)

(** ** Order of IEEE numbers *)

Module FloatOrder.

Local Ltac sf_cases :=
  repeat match goal with
  | s : bool |- _ => destruct s
  | |- context [Z.compare ?a ?b] => destruct (Z.compare_spec a b)
  | H : context [Z.compare ?a ?b] |- _ => destruct (Z.compare_spec a b)
  | |- context [Pos.compare_cont Eq ?a ?b] =>
      change (Pos.compare_cont Eq a b) with (Pos.compare a b); destruct (Pos.compare_spec a b)
  | H : context [Pos.compare_cont Eq ?a ?b] |- _ =>
      change (Pos.compare_cont Eq a b) with (Pos.compare a b) in H; destruct (Pos.compare_spec a b)
  end.

Lemma SFcompare_trans (a b c : spec_float) (r1 r2 : comparison) :
  SFcompare a b = Some r1 → SFcompare b c = Some r2 →
  r1 ≠ Gt → r2 ≠ Gt →
  SFcompare a c = Some (match r1 with Eq => r2 | _ => r1 end).
Proof.
  destruct a as [sa|sa| |sa ma ea], b as [sb|sb| |sb mb eb], c as [sc|sc| |sc mc ec];
    simpl; intros H1 H2 N1 N2; try discriminate;
    injection H1 as <-; injection H2 as <-;
    sf_cases; simpl in *; try congruence; try lia.
Qed.

Lemma SFcompare_swap (a b : spec_float) :
  SFcompare b a = CompOpp <$> SFcompare a b.
Proof.
  destruct a as [sa|sa| |sa ma ea], b as [sb|sb| |sb mb eb]; simpl; try reflexivity;
    sf_cases; simpl in *; try congruence; try lia.
Qed.

Lemma SFcompare_defined (a b : spec_float) :
  SFcompare a a = Some Eq → SFcompare b b = Some Eq → is_Some (SFcompare a b).
Proof.
  destruct a, b; simpl; intros Ha Hb; try discriminate; eauto.
Qed.

Lemma cmp_trans x y z r1 r2 :
  cmp x y = Some r1 → cmp y z = Some r2 → r1 ≠ Gt → r2 ≠ Gt →
  cmp x z = Some (match r1 with Eq => r2 | _ => r1 end).
Proof. apply SFcompare_trans. Qed.

Lemma cmp_swap x y : cmp y x = CompOpp <$> cmp x y.
Proof. apply SFcompare_swap. Qed.

Lemma ltb_cmp x y : (x <? y)%float = match cmp x y with Some Lt => true | _ => false end.
Proof. rewrite FloatAxioms.ltb_spec. reflexivity. Qed.

Lemma leb_cmp x y :
  (x <=? y)%float = match cmp x y with Some Lt | Some Eq => true | _ => false end.
Proof. rewrite FloatAxioms.leb_spec. reflexivity. Qed.

Lemma eqb_cmp x y : (x =? y)%float = match cmp x y with Some Eq => true | _ => false end.
Proof. rewrite FloatAxioms.eqb_spec. reflexivity. Qed.

Lemma number_cmp x : number x ↔ cmp x x = Some Eq.
Proof.
  unfold number, is_nan. rewrite eqb_cmp.
  destruct (cmp x x) as [[]|]; simpl; split; congruence.
Qed.

Lemma number_is_nan x : number x ↔ is_nan x = false.
Proof. reflexivity. Qed.

#[global] Opaque number.

Lemma cmp_defined x y : number x → number y → is_Some (cmp x y).
Proof. rewrite !number_cmp. apply SFcompare_defined. Qed.

Lemma cmp_number x y r : cmp x y = Some r → number x ∧ number y.
Proof.
  rewrite !number_cmp. unfold cmp.
  destruct (Prim2SF x) as [[]|[]| |[] ? ?], (Prim2SF y) as [[]|[]| |[] ? ?];
    simpl; try discriminate; intros _; split; try done;
    by rewrite Z.compare_refl, Pos.compare_cont_refl.
Qed.

(** Every comparison as a fact about [cmp]. *)
Ltac to_cmp :=
  unfold fle, flt, feq in *;
  rewrite ?number_cmp, ?ltb_cmp, ?leb_cmp, ?eqb_cmp in *.

Lemma flt_trans x y z : flt x y → flt y z → flt x z.
Proof.
  to_cmp. destruct (cmp x y) as [[]|] eqn:H1; try discriminate.
  destruct (cmp y z) as [[]|] eqn:H2; try discriminate.
  intros _ _. by rewrite (cmp_trans _ _ _ _ _ H1 H2).
Qed.

Lemma fle_trans x y z : fle x y → fle y z → fle x z.
Proof.
  to_cmp. destruct (cmp x y) as [[]|] eqn:H1; try discriminate;
  destruct (cmp y z) as [[]|] eqn:H2; try discriminate;
  intros _ _; by rewrite (cmp_trans _ _ _ _ _ H1 H2).
Qed.

Lemma flt_le_trans x y z : flt x y → fle y z → flt x z.
Proof.
  to_cmp. destruct (cmp x y) as [[]|] eqn:H1; try discriminate;
  destruct (cmp y z) as [[]|] eqn:H2; try discriminate;
  intros _ _; by rewrite (cmp_trans _ _ _ _ _ H1 H2).
Qed.

Lemma fle_lt_trans x y z : fle x y → flt y z → flt x z.
Proof.
  to_cmp. destruct (cmp x y) as [[]|] eqn:H1; try discriminate;
  destruct (cmp y z) as [[]|] eqn:H2; try discriminate;
  intros _ _; by rewrite (cmp_trans _ _ _ _ _ H1 H2).
Qed.

Lemma flt_le x y : flt x y → fle x y.
Proof. to_cmp. by destruct (cmp x y) as [[]|]. Qed.

Lemma fle_refl x : number x → fle x x.
Proof. to_cmp. by intros ->. Qed.

Lemma not_flt_le x y : number x → number y → (x <? y)%float = false → fle y x.
Proof.
  intros Hx Hy. destruct (cmp_defined x y Hx Hy) as [r Hr].
  unfold fle. rewrite ltb_cmp, leb_cmp, (cmp_swap x y), Hr. by destruct r.
Qed.

Lemma fle_not_flt x y : fle x y → (y <? x)%float = false.
Proof. to_cmp. rewrite (cmp_swap x y). by destruct (cmp x y) as [[]|]. Qed.

Lemma fle_antisym x y : fle x y → fle y x → feq x y.
Proof. to_cmp. rewrite (cmp_swap x y). by destruct (cmp x y) as [[]|]. Qed.

Lemma flt_not_feq x y : flt x y → (x =? y)%float = false.
Proof. to_cmp. by destruct (cmp x y) as [[]|]. Qed.

Lemma feq_le x y : feq x y → fle x y.
Proof. to_cmp. by destruct (cmp x y) as [[]|]. Qed.

Lemma feq_sym x y : feq x y → feq y x.
Proof. to_cmp. rewrite (cmp_swap x y). by destruct (cmp x y) as [[]|]. Qed.

Lemma feq_number x y : feq x y → number x ∧ number y.
Proof.
  unfold feq. rewrite eqb_cmp. destruct (cmp x y) as [r|] eqn:H; [|done].
  intros _. by eapply cmp_number.
Qed.

Lemma fle_number x y : fle x y → number x ∧ number y.
Proof.
  unfold fle. rewrite leb_cmp. destruct (cmp x y) as [r|] eqn:H; [|done].
  intros _. by eapply cmp_number.
Qed.

Lemma neg_infinity_le x : number x → fle neg_infinity x.
Proof.
  to_cmp. unfold cmp. change (Prim2SF neg_infinity) with (S754_infinity true).
  by destruct (Prim2SF x) as [| [] | |].
Qed.

End FloatOrder.

Import FloatOrder.

(** ** Environment *)

Lemma getNextPosition_inBounds (pos : Position) (a : Action) :
  inBounds pos → inBounds (getNextPosition pos a).
Proof.
  destruct pos as [x y]. unfold inBounds, GRID_SIZE. simpl.
  destruct a; simpl; unfold GRID_SIZE; lia.
Qed.

(** C5: on an in-bounds position [getNextPosition] is the displacement of
    the action followed by a clamp of each coordinate to
    [0, GRID_SIZE-1]; the result is in bounds, and a move against a
    boundary leaves the position where it is. *)
Theorem getNextPosition_clamps (pos : Position) (a : Action) :
  inBounds pos →
  getNextPosition pos a = transition_spec pos a ∧
  inBounds (getNextPosition pos a) ∧
  (pos.1 = 0%Z → getNextPosition pos Up = pos) ∧
  (pos.1 = (GRID_SIZE - 1)%Z → getNextPosition pos Down = pos) ∧
  (pos.2 = 0%Z → getNextPosition pos Left = pos) ∧
  (pos.2 = (GRID_SIZE - 1)%Z → getNextPosition pos Right = pos).
Proof.
  intros Hin. split; [|split; [by apply getNextPosition_inBounds|]].
  - destruct pos as [x y]. unfold inBounds, GRID_SIZE in Hin. simpl in Hin.
    unfold transition_spec, clamp. destruct a; simpl; unfold GRID_SIZE; f_equal; lia.
  - destruct pos as [x y]. simpl. unfold GRID_SIZE.
    repeat split; intros ->; f_equal; lia.
Qed.

Lemma getNextPosition_clamps_witness :
  getNextPosition (0, 4)%Z Right = transition_spec (0, 4)%Z Right ∧
  inBounds (getNextPosition (0, 4)%Z Right) ∧
  (0%Z = 0%Z → getNextPosition (0, 4)%Z Up = (0, 4)%Z) ∧
  (0%Z = (GRID_SIZE - 1)%Z → getNextPosition (0, 4)%Z Down = (0, 4)%Z) ∧
  (4%Z = 0%Z → getNextPosition (0, 4)%Z Left = (0, 4)%Z) ∧
  (4%Z = (GRID_SIZE - 1)%Z → getNextPosition (0, 4)%Z Right = (0, 4)%Z).
Proof.
  apply (getNextPosition_clamps (0, 4)%Z Right).
  unfold inBounds, GRID_SIZE. simpl. lia.
Defined.

(** The three rewards are three different numbers. *)
Local Ltac float_neq :=
  let H := fresh in
  intros H;
  match type of H with
  | Some ?a = Some _ =>
      apply (f_equal (fun o => match o with Some x => (x =? a)%float | None => false end)) in H;
      vm_compute in H; discriminate H
  end.

Lemma rewards_distinct :
  Some 10%float ≠ Some (-10)%float ∧ Some 10%float ≠ Some (-0.1)%float ∧
  Some (-10)%float ≠ Some 10%float ∧ Some (-10)%float ≠ Some (-0.1)%float ∧
  Some (-0.1)%float ≠ Some 10%float ∧ Some (-0.1)%float ≠ Some (-10)%float.
Proof. repeat split; float_neq. Qed.

Local Ltac eval_cell :=
  repeat match goal with
  | |- context [getReward initializeGrid ?p] =>
      let v := eval vm_compute in (getReward initializeGrid p) in
      change (getReward initializeGrid p) with v
  | |- context [isTerminalState initializeGrid ?p] =>
      let v := eval vm_compute in (isTerminalState initializeGrid p) in
      change (isTerminalState initializeGrid p) with v
  end.

Lemma fixed_grid_cells (pos : Position) :
  inBounds pos →
  (getReward initializeGrid pos = Some 10%float ↔ pos = gemCell) ∧
  (getReward initializeGrid pos = Some (-10)%float ↔ pos ∈ skullCells) ∧
  (pos ≠ gemCell → pos ∉ skullCells →
     getReward initializeGrid pos = Some (-0.1)%float) ∧
  (isTerminalState initializeGrid pos = Some true ↔ pos = gemCell ∨ pos ∈ skullCells) ∧
  (isTerminalState initializeGrid pos = Some false ↔ pos ≠ gemCell ∧ pos ∉ skullCells).
Proof.
  destruct pos as [r c]. unfold inBounds, GRID_SIZE, gemCell, skullCells. simpl.
  intros [Hr Hc].
  destruct rewards_distinct as (D1 & D2 & D3 & D4 & D5 & D6).
  assert (r = 0 ∨ r = 1 ∨ r = 2 ∨ r = 3 ∨ r = 4)%Z as Hrs by lia.
  assert (c = 0 ∨ c = 1 ∨ c = 2 ∨ c = 3 ∨ c = 4)%Z as Hcs by lia.
  clear Hr Hc.
  destruct Hrs as [->|[->|[->|[->| ->]]]], Hcs as [->|[->|[->|[->| ->]]]];
    eval_cell; rewrite ?elem_of_cons, ?elem_of_nil;
    intuition congruence.
Qed.

(** C6: on the fixed grid, for an in-bounds position, [getReward] is 10
    exactly at the gem (4,4), -10 exactly at the skulls (2,2), (1,3), (3,1)
    and -0.1 everywhere else, and [isTerminalState] is true exactly at the
    gem and the skulls. *)
Theorem reward_and_terminal_on_fixed_grid (pos : Position) :
  inBounds pos →
  (getReward initializeGrid pos = Some 10%float ↔ pos = gemCell) ∧
  (getReward initializeGrid pos = Some (-10)%float ↔ pos ∈ skullCells) ∧
  (pos ≠ gemCell → pos ∉ skullCells →
     getReward initializeGrid pos = Some (-0.1)%float) ∧
  (isTerminalState initializeGrid pos = Some true ↔ pos = gemCell ∨ pos ∈ skullCells) ∧
  (isTerminalState initializeGrid pos = Some false ↔ pos ≠ gemCell ∧ pos ∉ skullCells).
Proof. apply fixed_grid_cells. Qed.

Lemma reward_and_terminal_on_fixed_grid_witness :
  (getReward initializeGrid (1, 3)%Z = Some 10%float ↔ (1, 3)%Z = gemCell) ∧
  (getReward initializeGrid (1, 3)%Z = Some (-10)%float ↔ (1, 3)%Z ∈ skullCells) ∧
  ((1, 3)%Z ≠ gemCell → (1, 3)%Z ∉ skullCells →
     getReward initializeGrid (1, 3)%Z = Some (-0.1)%float) ∧
  (isTerminalState initializeGrid (1, 3)%Z = Some true ↔
     (1, 3)%Z = gemCell ∨ (1, 3)%Z ∈ skullCells) ∧
  (isTerminalState initializeGrid (1, 3)%Z = Some false ↔
     (1, 3)%Z ≠ gemCell ∧ (1, 3)%Z ∉ skullCells).
Proof.
  apply (reward_and_terminal_on_fixed_grid (1, 3)%Z).
  unfold inBounds, GRID_SIZE. simpl. lia.
Defined.

(** C10: while the grid is still the empty array of the first render,
    [getReward] is 0 and [isTerminalState] is false at every position, and
    [step] changes nothing, so no episode can end. *)
Theorem before_grid_construction (st : State) (rnd : Random) (pos : Position) :
  grid st = [] →
  getReward (grid st) pos = Some 0%float ∧
  isTerminalState (grid st) pos = Some false ∧
  step rnd st = Some st.
Proof.
  intros Hgrid. unfold getReward, isTerminalState, step. rewrite Hgrid. done.
Qed.

Lemma before_grid_construction_witness :
  getReward (grid initialState) (4, 4)%Z = Some 0%float ∧
  isTerminalState (grid initialState) (4, 4)%Z = Some false ∧
  step {| explore := 0.5%float; pick := 0.5%float |} initialState = Some initialState.
Proof.
  apply (before_grid_construction initialState _ (4, 4)%Z). reflexivity.
Defined.

(** ** The values the scans read *)

Lemma or0_number (v : option float) : number (JS.or0 v).
Proof.
  destruct v as [x|]; simpl; [|by apply number_cmp].
  unfold JS.ToBoolean. destruct (is_zero x); simpl; [by apply number_cmp|].
  destruct (is_nan x) eqn:Hx; simpl; [by apply number_cmp|]. done.
Qed.

Lemma or0_feq (x : float) : number x → feq (JS.or0 (Some x)) x.
Proof.
  intros Hx. simpl. unfold JS.ToBoolean.
  destruct (is_zero x) eqn:Hz; simpl.
  - apply feq_sym. exact Hz.
  - rewrite (proj1 (number_is_nan x) Hx). simpl.
    apply fle_antisym; by apply fle_refl.
Qed.

(** ** The greedy scan *)

Lemma scan_invariant (entry : gmap Action float) (l : list Action) :
  ∀ (m0 : float) (b0 : Action) (m : float) (b : Action),
    number m0 →
    foldl (scanStep entry) (m0, b0) l = (m, b) →
    number m ∧ fle m0 m ∧ (∀ a, a ∈ l → fle (qValue entry a) m) ∧
    ((m = m0 ∧ b = b0) ∨
     (∃ l1 l2, l = l1 ++ b :: l2 ∧ m = qValue entry b ∧ flt m0 m ∧
               ∀ a, a ∈ l1 → flt (qValue entry a) m)).
Proof.
  induction l as [|a l IH]; intros m0 b0 m b Hm0 Hfold; simpl in Hfold.
  - injection Hfold as <- <-. repeat split; try done.
    + by apply fle_refl.
    + intros a Ha. by apply elem_of_nil in Ha.
    + by left.
  - fold (qValue entry a) in Hfold.
    pose proof (or0_number (entry !! a)) as Hva. fold (qValue entry a) in Hva.
    destruct (m0 <? qValue entry a)%float eqn:Hlt.
    + destruct (IH _ _ _ _ Hva Hfold) as (Hm & Hle & Hall & Hcase).
      assert (flt m0 m) as Hm0m by (eapply flt_le_trans; [exact Hlt|exact Hle]).
      repeat split; try done.
      * by apply flt_le.
      * intros x [->|Hx]%elem_of_cons; [done|by apply Hall].
      * right. destruct Hcase as [[-> ->]|(l1 & l2 & -> & -> & Hlt' & Hl1)].
        -- exists [], l. repeat split; try done. intros x Hx. by apply elem_of_nil in Hx.
        -- exists (a :: l1), l2. repeat split; try done.
           intros x [->|Hx]%elem_of_cons; [done|by apply Hl1].
    + destruct (IH _ _ _ _ Hm0 Hfold) as (Hm & Hle & Hall & Hcase).
      assert (fle (qValue entry a) m0) as Ha0 by (by apply not_flt_le).
      repeat split; try done.
      * intros x [->|Hx]%elem_of_cons; [by eapply fle_trans|by apply Hall].
      * destruct Hcase as [[-> ->]|(l1 & l2 & -> & -> & Hlt' & Hl1)]; [by left|right].
        exists (a :: l1), l2. repeat split; try done.
        intros x [->|Hx]%elem_of_cons; [by eapply fle_lt_trans|by apply Hl1].
Qed.

(** [greedyAction] returns the first action of [ACTIONS] that no action
    beats: everything before it is strictly smaller, nothing is larger. *)
Lemma greedyAction_first_max (entry : gmap Action float) :
  ∃ l1 l2, ACTIONS = l1 ++ greedyAction entry :: l2 ∧
    (∀ a, a ∈ l1 → flt (qValue entry a) (qValue entry (greedyAction entry))) ∧
    (∀ a, fle (qValue entry a) (qValue entry (greedyAction entry))).
Proof.
  unfold greedyAction.
  destruct (foldl (scanStep entry) (neg_infinity, Up) ACTIONS) as [m b] eqn:Hfold.
  assert (number neg_infinity) as Hinf by (by apply number_cmp).
  destruct (scan_invariant entry ACTIONS _ _ _ _ Hinf Hfold) as (Hm & Hle & Hall & Hcase).
  assert (∀ a : Action, a ∈ ACTIONS) as Hin
    by (intros []; unfold ACTIONS; rewrite ?elem_of_cons; auto).
  simpl. destruct Hcase as [[-> ->]|(l1 & l2 & Heq & -> & Hlt & Hl1)].
  - exists [], [Down; Left; Right]. repeat split; try done.
    + intros a Ha. by apply elem_of_nil in Ha.
    + intros a. eapply fle_trans; [by apply Hall|]. apply neg_infinity_le, or0_number.
  - exists l1, l2. repeat split; try done. intros a. by apply Hall.
Qed.

(** ** [Math.max] *)

Lemma is_zero_feq (x : float) : is_zero x = true → feq x 0%float.
Proof. done. Qed.

(** On numbers [Math.max] is an upper bound of its arguments and of the
    start value, and is numerically one of them. *)
Lemma Math_max_from_spec (xs : list float) :
  ∀ h : float, number h → (∀ x, x ∈ xs → number x) →
    let m := JS.Math_max_from h xs in
    number m ∧ fle h m ∧ (∀ x, x ∈ xs → fle x m) ∧
    (feq m h ∨ ∃ x, x ∈ xs ∧ feq m x).
Proof.
  induction xs as [|x xs IH]; intros h Hh Hxs; simpl.
  - repeat split; try done.
    + by apply fle_refl.
    + intros x Hx. by apply elem_of_nil in Hx.
    + left. apply fle_antisym; by apply fle_refl.
  - assert (number x) as Hx by (apply Hxs; by left).
    assert (∀ y, y ∈ xs → number y) as Hxs' by (intros y Hy; apply Hxs; by right).
    rewrite (proj1 (number_is_nan x) Hx).
    destruct (JS.is_pos_zero x && JS.is_neg_zero h) eqn:Hzero.
    + apply andb_prop in Hzero as [Hpz Hnz].
      apply andb_prop in Hpz as [Hxz%is_zero_feq _].
      apply andb_prop in Hnz as [Hhz%is_zero_feq _].
      assert (number 0%float) as H0 by (by apply number_cmp).
      destruct (IH _ H0 Hxs') as (Hm & Hle & Hall & Hcase).
      repeat split; try done.
      * eapply fle_trans; [by apply feq_le|done].
      * intros y [->|Hy]%elem_of_cons; [|by apply Hall].
        eapply fle_trans; [by apply feq_le|done].
      * right. destruct Hcase as [Hm0|(y & Hy & Hmy)].
        -- exists x. split; [by left|].
           apply fle_antisym.
           ++ eapply fle_trans; [by apply feq_le|by apply feq_le, feq_sym].
           ++ eapply fle_trans; [by apply feq_le|by apply feq_le, feq_sym].
        -- exists y. split; [by right|done].
    + destruct (h <? x)%float eqn:Hlt.
      * destruct (IH _ Hx Hxs') as (Hm & Hle & Hall & Hcase).
        repeat split; try done.
        -- apply flt_le. by eapply flt_le_trans.
        -- intros y [->|Hy]%elem_of_cons; [done|by apply Hall].
        -- right. destruct Hcase as [Hmx|(y & Hy & Hmy)].
           ++ exists x. split; [by left|done].
           ++ exists y. split; [by right|done].
      * destruct (IH _ Hh Hxs') as (Hm & Hle & Hall & Hcase).
        repeat split; try done.
        -- intros y [->|Hy]%elem_of_cons; [|by apply Hall].
           eapply fle_trans; [exact (not_flt_le h x Hh Hx Hlt)|done].
        -- destruct Hcase as [Hmh|(y & Hy & Hmy)]; [by left|right].
           exists y. split; [by right|done].
Qed.

(** The maximum of the four values of a family of numbers. *)
Lemma Math_max_ACTIONS (s : Action → float) :
  (∀ a, number (s a)) →
  let m := JS.Math_max (map s ACTIONS) in
  (∀ a, fle (s a) m) ∧ ∃ a, feq m (s a).
Proof.
  intros Hs m.
  assert (number neg_infinity) as Hinf by (by apply number_cmp).
  assert (∀ x, x ∈ map s ACTIONS → number x) as Hxs.
  { intros x (a & <- & _)%list_elem_of_In%in_map_iff. apply Hs. }
  destruct (Math_max_from_spec (map s ACTIONS) neg_infinity Hinf Hxs) as (Hm & _ & Hall & Hcase).
  fold (JS.Math_max (map s ACTIONS)) in Hm, Hall, Hcase. fold m in Hm, Hall, Hcase.
  assert (∀ a, fle (s a) m) as Hub.
  { intros a. apply Hall, list_elem_of_In, in_map.
    destruct a; simpl; auto. }
  split; [done|].
  destruct Hcase as [Hminf|(x & (a & <- & _)%list_elem_of_In%in_map_iff & Hmx)];
    [|by exists a].
  exists Up. apply fle_antisym; [|done].
  eapply fle_trans; [by apply feq_le|]. by apply neg_infinity_le.
Qed.

Lemma find_first {A} (P : A → bool) (l1 l2 : list A) (r : A) :
  (∀ a, a ∈ l1 → P a = false) → P r = true → List.find P (l1 ++ r :: l2) = Some r.
Proof.
  intros Hl1 Hr. induction l1 as [|a l1 IH]; simpl.
  - by rewrite Hr.
  - rewrite (Hl1 a) by (by left). apply IH. intros b Hb. apply Hl1. by right.
Qed.

(** ** Policy *)

(** C2: in the exploitation branch, for a state whose entry holds a number
    for each of the four actions, [chooseAction] returns the first action
    of [up, down, left, right] whose stored value equals the maximum of the
    four stored values (and leaves the table as it is). *)
Theorem chooseAction_greedy_first_maximal (eps : float) (rnd : Random) (pos : Position)
    (q : QTableState) (entry : gmap Action float) (s : Action → float) :
  (explore rnd <? eps)%float = false →
  q !! getStateKey pos = Some entry →
  (∀ a, entry !! a = Some (s a)) →
  (∀ a, number (s a)) →
  ∃ r, chooseAction eps rnd pos q = Some (r, q) ∧ firstMaximalAction s = Some r.
Proof.
  intros Hgreedy Hentry Hpop Hnum.
  exists (greedyAction entry). split.
  - unfold chooseAction, ensureEntry. rewrite Hgreedy, Hentry. simpl. by rewrite Hentry.
  - destruct (greedyAction_first_max entry) as (l1 & l2 & Hsplit & Hbefore & Hmax).
    destruct (Math_max_ACTIONS s Hnum) as (Hub & a0 & Ha0).
    assert (∀ a, feq (qValue entry a) (s a)) as Hval.
    { intros a. unfold qValue. rewrite Hpop. by apply or0_feq. }
    set (r := greedyAction entry) in *.
    unfold firstMaximalAction. set (m := JS.Math_max (map s ACTIONS)) in *.
    rewrite Hsplit. apply find_first.
    + intros a Ha. apply flt_not_feq.
      eapply fle_lt_trans; [apply feq_le, feq_sym, Hval|].
      eapply flt_le_trans; [by apply Hbefore|].
      eapply fle_trans; [apply feq_le, Hval|apply Hub].
    + apply fle_antisym; [apply Hub|].
      eapply fle_trans; [apply feq_le, Ha0|].
      eapply fle_trans; [apply feq_le, feq_sym, Hval|].
      eapply fle_trans; [apply Hmax|apply feq_le, Hval].
Qed.

Lemma chooseAction_greedy_first_maximal_witness :
  ∃ r, chooseAction 0.2%float {| explore := 0.5%float; pick := 0%float |} (0, 0)%Z
         (<["0,0" := tiedEntry]> ∅) = Some (r, <["0,0" := tiedEntry]> ∅) ∧
       firstMaximalAction tiedValues = Some r.
Proof.
  apply (chooseAction_greedy_first_maximal 0.2%float
           {| explore := 0.5%float; pick := 0%float |} (0, 0)%Z
           (<["0,0" := tiedEntry]> ∅) tiedEntry tiedValues).
  - reflexivity.
  - reflexivity.
  - intros []; reflexivity.
  - intros []; apply number_is_nan; reflexivity.
Defined.

(** ** Learner *)

Lemma zeroEntry_lookup (a : Action) : zeroEntry !! a = Some 0%float.
Proof. by destruct a. Qed.

Lemma ensureEntry_lookup (k k' : string) (q : QTableState) :
  ensureEntry k q !! k' =
  match q !! k' with
  | Some e => Some e
  | None => if decide (k' = k) then Some zeroEntry else None
  end.
Proof.
  unfold ensureEntry. destruct (q !! k) as [e|] eqn:Hk.
  - destruct (q !! k') as [e'|] eqn:Hk'; [done|].
    case_decide; [congruence|done].
  - destruct (decide (k' = k)) as [->|Hne].
    + by rewrite lookup_insert_eq, Hk.
    + rewrite lookup_insert_ne by done. by destruct (q !! k').
Qed.

Lemma ensureEntry_twice_lookup (k1 k2 k : string) (q : QTableState) :
  ensureEntry k2 (ensureEntry k1 q) !! k =
  match q !! k with
  | Some e => Some e
  | None => if decide (k = k1 ∨ k = k2) then Some zeroEntry else None
  end.
Proof.
  rewrite !ensureEntry_lookup. destruct (q !! k) as [e|]; [done|].
  repeat case_decide; intuition congruence.
Qed.

(** What [entry[a] || 0] reads from the stored values. *)
Lemma qValue_stored (e : gmap Action float) (a : Action) :
  qValue e a = match e !! a with
               | Some x => if is_nan x || is_zero x then 0%float else x
               | None => 0%float
               end.
Proof.
  unfold qValue, JS.or0, JS.ToBoolean. destruct (e !! a) as [x|]; [|done].
  by destruct (is_zero x), (is_nan x).
Qed.

Lemma feq_trans x y z : feq x y → feq y z → feq x z.
Proof.
  intros Hxy Hyz. apply fle_antisym.
  - eapply fle_trans; by apply feq_le.
  - eapply fle_trans; apply feq_le; by apply feq_sym.
Qed.

(** C3: the update first makes sure both states have an entry (a new
    entry holds 0 for each of the four actions), then writes
    [oldQ + alpha * (reward + gamma * maxNext - oldQ)] into the cell of
    [(state, action)], where [alpha = 0.1], [gamma = 0.9], [oldQ] is the
    number stored in that cell and [maxNext] is the maximum of the four
    numbers stored for the next state; a stored [NaN] or zero, or a missing
    value, is read as 0, as [|| 0] does.  Every other cell and the set of
    states of the table stay as they were after the first step. *)
Theorem qLearningUpdate_spec (q : QTableState) (state nextState : Position)
    (action : Action) (reward : float) :
  let stateKey := getStateKey state in
  let nextKey := getStateKey nextState in
  let q1 := ensureEntry nextKey (ensureEntry stateKey q) in
  alpha = 0.1%float ∧ gamma = 0.9%float ∧
  (∀ k, q1 !! k = match q !! k with
                  | Some e => Some e
                  | None => if decide (k = stateKey ∨ k = nextKey)
                            then Some zeroEntry else None
                  end) ∧
  (∀ a, zeroEntry !! a = Some 0%float) ∧
  (∀ e a, qValue e a = match e !! a with
                       | Some x => if is_nan x || is_zero x then 0%float else x
                       | None => 0%float
                       end) ∧
  ∃ entry nextEntry q',
    q1 !! stateKey = Some entry ∧ q1 !! nextKey = Some nextEntry ∧
    qLearningUpdate q state action reward nextState = Some q' ∧
    let oldQ := qValue entry action in
    let maxNext := JS.Math_max (map (qValue nextEntry) ACTIONS) in
    (∀ x, entry !! action = Some x → number x → feq oldQ x) ∧
    (∀ a x, nextEntry !! a = Some x → number x → fle x maxNext) ∧
    ((∀ a, ∃ x, nextEntry !! a = Some x ∧ number x) →
       ∃ a x, nextEntry !! a = Some x ∧ feq maxNext x) ∧
    (∀ a, fle (qValue nextEntry a) maxNext) ∧
    (∃ a, feq maxNext (qValue nextEntry a)) ∧
    q' !! stateKey ≫= (.!! action)
      = Some (oldQ + alpha * (reward + gamma * maxNext - oldQ))%float ∧
    (∀ k a, (k, a) ≠ (stateKey, action) →
       q' !! k ≫= (.!! a) = q1 !! k ≫= (.!! a)) ∧
    dom q' = dom q1.
Proof.
  intros stateKey nextKey q1.
  pose proof (ensureEntry_twice_lookup stateKey nextKey) as Hq1.
  split; [done|]. split; [done|]. split; [intros k; apply Hq1|].
  split; [apply zeroEntry_lookup|]. split; [apply qValue_stored|].
  assert (is_Some (q1 !! stateKey)) as [entry Hentry].
  { unfold q1. rewrite Hq1. destruct (q !! stateKey); [done|].
    rewrite decide_True by auto. done. }
  assert (is_Some (q1 !! nextKey)) as [nextEntry Hnext].
  { unfold q1. rewrite Hq1. destruct (q !! nextKey); [done|].
    rewrite decide_True by auto. done. }
  exists entry, nextEntry. eexists. split; [done|]. split; [done|]. split.
  { unfold qLearningUpdate. fold stateKey nextKey q1. rewrite Hnext. simpl.
    rewrite Hentry. simpl. reflexivity. }
  simpl.
  destruct (Math_max_ACTIONS (qValue nextEntry)) as [Hub Hatt].
  { intros a. apply or0_number. }
  split; [|split; [|split; [|split; [exact Hub|split; [exact Hatt|split; [|split]]]]]].
  - intros x Hx Hnum. unfold qValue. rewrite Hx. by apply or0_feq.
  - intros a x Hx Hnum. eapply fle_trans; [|apply (Hub a)].
    unfold qValue. rewrite Hx. by apply feq_le, feq_sym, or0_feq.
  - intros Hfull. destruct Hatt as [a Ha]. destruct (Hfull a) as (x & Hx & Hnum).
    exists a, x. split; [done|]. eapply feq_trans; [exact Ha|].
    unfold qValue. rewrite Hx. by apply or0_feq.
  - rewrite lookup_insert_eq. simpl. by rewrite lookup_insert_eq.
  - intros k a Hne. destruct (decide (k = stateKey)) as [->|Hk].
    + rewrite lookup_insert_eq, Hentry. simpl.
      rewrite lookup_insert_ne; [done|]. congruence.
    + by rewrite lookup_insert_ne.
  - by apply dom_insert_lookup_L.
Qed.

Lemma qLearningUpdate_spec_witness :
  ∃ q',
    qLearningUpdate twoStateTable (0, 0)%Z Right (-0.1)%float (0, 1)%Z = Some q' ∧
    q' !! "0,0" ≫= (.!! Right)
      = Some 1.07%float ∧
    q' !! "0,0" ≫= (.!! Down) = Some 0%float ∧
    q' !! "0,1" ≫= (.!! Down) = Some 2%float.
Proof.
  destruct (qLearningUpdate_spec twoStateTable (0, 0)%Z (0, 1)%Z Right (-0.1)%float)
    as (_ & _ & _ & _ & _ & entry & nextEntry & q' & Hentry & Hnext & Hupd & _ & _ & _
        & _ & _ & Hcell & Hframe & _).
  vm_compute in Hentry, Hnext. injection Hentry as <-. injection Hnext as <-.
  exists q'. split; [exact Hupd|]. split; [|split].
  - etransitivity; [exact Hcell|]. vm_compute. reflexivity.
  - etransitivity; [apply (Hframe "0,0" Down); discriminate|]. vm_compute. reflexivity.
  - etransitivity; [apply (Hframe "0,1" Down); discriminate|]. vm_compute. reflexivity.
Defined.

(** ** Optimal path *)

(** The loop body, for whatever grid [isTerminalState] reads. *)
Lemma walk_terminal grid q fuel pos path :
  isTerminalState grid pos = Some true → walk grid q fuel pos path = Some (path, pos).
Proof. intros H. destruct fuel; simpl; by rewrite H. Qed.

Lemma walk_absent grid q fuel pos path :
  isTerminalState grid pos = Some false → q !! getStateKey pos = None →
  walk grid q (S fuel) pos path = Some (path ++ [pos], pos).
Proof. intros H Hq. simpl. by rewrite H, Hq. Qed.

Lemma walk_advance grid q fuel pos path entry :
  isTerminalState grid pos = Some false → q !! getStateKey pos = Some entry →
  walk grid q (S fuel) pos path
  = walk grid q fuel (getNextPosition pos (greedyAction entry)) (path ++ [pos]).
Proof. intros H Hq. simpl. by rewrite H, Hq. Qed.

Lemma walk_length grid q fuel :
  ∀ pos path path' pos',
    walk grid q fuel pos path = Some (path', pos') →
    length path' ≤ length path + fuel.
Proof.
  induction fuel as [|fuel IH]; intros pos path path' pos' Hwalk; simpl in Hwalk.
  - destruct (isTerminalState grid pos) as [[]|]; simplify_eq/=; lia.
  - destruct (isTerminalState grid pos) as [[]|]; simplify_eq/=; [lia|].
    destruct (q !! getStateKey pos) as [entry|].
    + apply IH in Hwalk. rewrite length_app in Hwalk. simpl in Hwalk. lia.
    + simplify_eq. rewrite length_app. simpl. lia.
Qed.

Lemma calculateOptimalPathIn_length grid q path :
  calculateOptimalPathIn grid q = Some path → length path ≤ 51.
Proof.
  unfold calculateOptimalPathIn. intros H.
  destruct (walk grid q maxSteps (0, 0)%Z []) as [[path' pos']|] eqn:Hwalk; [|done].
  apply walk_length in Hwalk. unfold maxSteps in Hwalk. simpl in *.
  destruct (isTerminalState grid pos') as [[]|]; simplify_eq/=;
    rewrite ?length_app; simpl; lia.
Qed.

(** The walk always returns when the grid is the empty one of the first
    render, and when it is the fixed grid. *)
Lemma isTerminalState_mountGrid pos : isTerminalState mountGrid pos = Some false.
Proof. done. Qed.

Lemma isTerminalState_defined pos :
  inBounds pos → is_Some (isTerminalState initializeGrid pos).
Proof.
  intros Hin. destruct (fixed_grid_cells pos Hin) as (_ & _ & _ & Ht & Hf).
  destruct (decide (pos = gemCell ∨ pos ∈ skullCells)) as [Hyes|Hno].
  - exists true. by apply Ht.
  - exists false. apply Hf. tauto.
Qed.

Lemma walk_defined grid q fuel :
  ∀ (inv : Position → Prop),
    (∀ pos, inv pos → is_Some (isTerminalState grid pos)) →
    (∀ pos a, inv pos → inv (getNextPosition pos a)) →
    ∀ pos path, inv pos →
      ∃ path' pos', walk grid q fuel pos path = Some (path', pos') ∧ inv pos'.
Proof.
  intros inv Hterm Hnext.
  induction fuel as [|fuel IH]; intros pos path Hpos; simpl;
    destruct (Hterm pos Hpos) as [[] ->]; simpl; eauto.
  destruct (q !! getStateKey pos) as [entry|]; eauto.
Qed.

Lemma calculateOptimalPathIn_defined grid q (inv : Position → Prop) :
  (∀ pos, inv pos → is_Some (isTerminalState grid pos)) →
  (∀ pos a, inv pos → inv (getNextPosition pos a)) →
  inv (0, 0)%Z →
  is_Some (calculateOptimalPathIn grid q).
Proof.
  intros Hterm Hnext H0. unfold calculateOptimalPathIn.
  destruct (walk_defined grid q maxSteps inv Hterm Hnext (0, 0)%Z [] H0)
    as (path & pos & -> & Hpos).
  simpl. destruct (Hterm pos Hpos) as [t ->]. simpl. eauto.
Qed.

(** C7: [calculateOptimalPath] returns, and never more than 51 positions;
    the same holds for its body run against the fixed grid. *)
Theorem calculateOptimalPath_at_most_51 (q : QTableState) :
  (∃ path, calculateOptimalPath q = Some path ∧ length path ≤ 51) ∧
  (∃ path, calculateOptimalPathIn initializeGrid q = Some path ∧ length path ≤ 51).
Proof.
  split.
  - destruct (calculateOptimalPathIn_defined mountGrid q (λ _, True)) as [path Hpath]; try done.
    exists path. split; [done|]. by eapply calculateOptimalPathIn_length.
  - destruct (calculateOptimalPathIn_defined initializeGrid q inBounds) as [path Hpath].
    + apply isTerminalState_defined.
    + intros pos a. apply getNextPosition_inBounds.
    + unfold inBounds, GRID_SIZE. simpl. lia.
    + exists path. split; [done|]. by eapply calculateOptimalPathIn_length.
Qed.

(** C1: the walk is meant to stop on a terminal cell, and its body does so
    when run against the fixed grid; [calculateOptimalPath] itself reads the
    empty grid of the first render, takes no cell for terminal and walks on.
    For [skullTable], whose greedy actions lead from (0,0) into the skull at
    (1,3), it returns fifty positions instead of the five that end on the
    skull.  After fifty episodes along the left and bottom edges the path
    [step] publishes runs through the gem (4,4) and ends on (3,4). *)
Theorem calculateOptimalPath_passes_terminal :
  isTerminalState initializeGrid (1, 3)%Z = Some true ∧
  isTerminalState initializeGrid (4, 4)%Z = Some true ∧
  calculateOptimalPathIn initializeGrid skullTable
    = Some [(0, 0); (0, 1); (0, 2); (0, 3); (1, 3)]%Z ∧
  (∃ path, calculateOptimalPath skullTable = Some path ∧
           take 7 path = [(0, 0); (0, 1); (0, 2); (0, 3); (1, 3); (0, 3); (1, 3)]%Z ∧
           length path = 50) ∧
  optimalPath <$> run (training 50) initialState
    = Some [(0, 0); (1, 0); (2, 0); (3, 0); (4, 0); (4, 1); (4, 2); (4, 3); (4, 4);
            (3, 4)]%Z ∧
  (st ← run (training 50) initialState; calculateOptimalPath (qTable st))
    = Some [(0, 0); (1, 0); (2, 0); (3, 0); (4, 0); (4, 1); (4, 2); (4, 3); (4, 4);
            (3, 4)]%Z ∧
  (st ← run (training 50) initialState; calculateOptimalPathIn initializeGrid (qTable st))
    = Some [(0, 0); (1, 0); (2, 0); (3, 0); (4, 0); (4, 1); (4, 2); (4, 3); (4, 4)]%Z.
Proof.
  split; [by vm_compute|]. split; [by vm_compute|]. split; [by vm_compute|]. split.
  - eexists. split; [vm_compute; reflexivity|]. split; reflexivity.
  - split; [by vm_compute|]. split; by vm_compute.
Qed.

(** ** Saved paths *)

Lemma sumRewards_snoc (path : list PathStep) (s : PathStep) :
  sumRewards (path ++ [s]) = (sumRewards path + ps_reward s)%float.
Proof. unfold sumRewards. by rewrite foldl_app. Qed.

(** No command removes or changes a saved path. *)
Lemma exec_savedPaths_prefix (c : Command) (st st' : State) :
  exec c st = Some st' → savedPaths st `prefix_of` savedPaths st'.
Proof.
  destruct c; simpl; intros H; simplify_eq/=; try done.
  - unfold step in H. case_decide; simplify_eq/=; [done|].
    destruct (chooseAction _ _ _ _) as [[a q']|]; simplify_eq/=.
    destruct (getReward _ _); simplify_eq/=.
    destruct (qLearningUpdate _ _ _ _ _); simplify_eq/=.
    destruct (isTerminalState _ _) as [[]|]; simplify_eq/=; [|done].
    unfold finishEpisode in H.
    destruct (calculateOptimalPath _); simplify_eq/=.
    by destruct (_ <? _)%float.
  - unfold settle. by destruct (pendingResets st).
  - unfold showOptimalRoute in H. case_decide; simplify_eq/=; [done|].
    destruct (calculateOptimalPath _); by simplify_eq/=.
  - unfold saveCurrentPath. case_decide; simpl; [done|]. by apply prefix_app_r.
Qed.

(** The reduce adds the rewards from 0, left to right. *)
Lemma sumRewards_fold_left (path : list PathStep) :
  sumRewards path
  = fold_left (fun sum r => (sum + r)%float) (map ps_reward path) 0%float.
Proof.
  unfold sumRewards. generalize 0%float.
  induction path as [|s path IH]; intros acc; [done|]. simpl. apply IH.
Qed.

(** C8: with an empty trajectory [saveCurrentPath] changes nothing;
    otherwise it appends one entry to the saved paths and changes nothing
    else: the entry holds the trajectory, the sum of its step rewards added
    up from 0 in the order of the steps, and the name "Path n" for n one
    more than the number of paths saved before.  The paths saved before stay
    in place, under every command. *)
Theorem saveCurrentPath_spec (now date : Z) (st : State) :
  (currentPath st = [] → saveCurrentPath now date st = st) ∧
  (currentPath st ≠ [] →
     ∃ entry,
       saveCurrentPath now date st = setSavedPaths (savedPaths st ++ [entry]) st ∧
       sp_steps entry = currentPath st ∧
       sp_totalReward entry = sumRewards (currentPath st) ∧
       sp_totalReward entry
         = fold_left (fun sum r => (sum + r)%float)
             (map ps_reward (currentPath st)) 0%float ∧
       sp_name entry
         = "Path " +:+ JS.toString (Z.of_nat (length (savedPaths st)) + 1)) ∧
  (∀ c st', exec c st = Some st' → savedPaths st `prefix_of` savedPaths st').
Proof.
  split; [|split].
  - intros Hempty. unfold saveCurrentPath. by rewrite Hempty.
  - intros Hne. unfold saveCurrentPath. rewrite decide_False.
    + eexists. split; [reflexivity|]. split; [done|]. split; [done|].
      split; [apply sumRewards_fold_left|done].
    + by destruct (currentPath st).
  - intros c st'. apply exec_savedPaths_prefix.
Qed.

Lemma saveCurrentPath_spec_witness :
  saveCurrentPath 1000 1001 initialState = initialState ∧
  ∃ entry,
    saveCurrentPath 1000 1001 (setCurrentPath gemFinish initialState)
      = setSavedPaths [entry] (setCurrentPath gemFinish initialState) ∧
    sp_steps entry = gemFinish ∧
    sp_totalReward entry = 9.9%float ∧
    sp_name entry = "Path 1".
Proof.
  split.
  - apply (saveCurrentPath_spec 1000 1001 initialState). reflexivity.
  - destruct (saveCurrentPath_spec 1000 1001 (setCurrentPath gemFinish initialState))
      as (_ & Hsave & _).
    destruct Hsave as (entry & Hentry & Hsteps & _ & Htotal & Hname); [discriminate|].
    exists entry. split; [exact Hentry|]. split; [exact Hsteps|].
    split; [|exact Hname]. etransitivity; [exact Htotal|]. vm_compute. reflexivity.
Defined.

(** ** Reset *)

(** C9: whatever state the commands have led to, [reset] puts the step
    count, the episode count and the cumulative reward back to 0, epsilon to
    0.2, the best episode reward to negative infinity, empties the Q-table,
    the trajectory and the optimal path, puts the agent on (0,0) and
    installs the fixed grid again; a reset-to-start timer that is still
    pending changes none of this when it fires. *)
Theorem reset_restores_fresh_engine (st : State) :
  freshEngine (reset st) ∧ freshEngine (settle (reset st)) ∧
  (∀ cs, from_option (λ st', freshEngine (reset st')) True (run cs initialState)).
Proof.
  split; [by repeat split|]. split.
  - unfold settle. destruct (pendingResets (reset st)); by repeat split.
  - intros cs. destruct (run cs initialState); simpl; by repeat split.
Qed.

(** ** Exploration rate *)

Lemma scheduleOK_iter (n : nat) :
  ∀ e k, scheduleOK n e = true → k < n → rateOK (Nat.iter k decayEpsilon e) = true.
Proof.
  induction n as [|n IH]; intros e k Hok Hk; [lia|].
  simpl in Hok. apply andb_prop in Hok as [He Hrest].
  destruct k as [|k]; [done|].
  rewrite Nat.iter_succ_r. apply IH; [done|lia].
Qed.

Lemma epsilonAfter_floor : decayEpsilon (epsilonAfter floorEpisode) = epsilonAfter floorEpisode.
Proof. by vm_compute. Qed.

Lemma epsilonAfter_rests (n : nat) :
  floorEpisode ≤ n → epsilonAfter n = epsilonAfter floorEpisode.
Proof.
  induction 1 as [|n Hle IH]; [done|].
  unfold epsilonAfter in *. simpl. rewrite IH. apply epsilonAfter_floor.
Qed.

Lemma epsilonAfter_ok (n : nat) : rateOK (epsilonAfter n) = true.
Proof.
  assert (scheduleOK (S floorEpisode) initialEpsilon = true) as Hok by (by vm_compute).
  destruct (decide (n ≤ floorEpisode)) as [Hn|Hn].
  - apply (scheduleOK_iter _ _ _ Hok). lia.
  - rewrite epsilonAfter_rests by lia. apply (scheduleOK_iter _ _ _ Hok). lia.
Qed.

(** What one call of [step] does to the episode count and to epsilon. *)
Lemma step_cases (rnd : Random) (st st' : State) :
  step rnd st = Some st' →
  (length (grid st) = 0 ∧ st' = st) ∨
  (isTerminalState (grid st) (agentPos st') = Some true ∧
   episodeCount st' = (episodeCount st + 1)%Z ∧
   epsilon st' = decayEpsilon (epsilon st)) ∨
  (isTerminalState (grid st) (agentPos st') = Some false ∧
   episodeCount st' = episodeCount st ∧ epsilon st' = epsilon st).
Proof.
  unfold step. intros H. case_decide; simplify_eq/=; [by left|right].
  destruct (chooseAction _ _ _ _) as [[a q']|]; simplify_eq/=.
  destruct (getReward _ _); simplify_eq/=.
  destruct (qLearningUpdate _ _ _ _ _); simplify_eq/=.
  destruct (isTerminalState _ _) as [[]|] eqn:Hterm; simplify_eq/=; [left|by right].
  unfold finishEpisode in H.
  destruct (calculateOptimalPath _); simplify_eq/=.
  by destruct (_ <? _)%float.
Qed.

(** Every command other than [step] and [reset] leaves both alone. *)
Lemma exec_epsilon (c : Command) (st st' : State) :
  exec c st = Some st' →
  match c with
  | Reset => epsilon st' = 0.2%float
  | Step rnd =>
      (length (grid st) = 0 ∧ st' = st) ∨
      (isTerminalState (grid st) (agentPos st') = Some true ∧
       episodeCount st' = (episodeCount st + 1)%Z ∧
       epsilon st' = decayEpsilon (epsilon st)) ∨
      (isTerminalState (grid st) (agentPos st') = Some false ∧
       episodeCount st' = episodeCount st ∧ epsilon st' = epsilon st)
  | _ => episodeCount st' = episodeCount st ∧ epsilon st' = epsilon st
  end.
Proof.
  destruct c; simpl; intros H; simplify_eq/=; try done.
  - by eapply step_cases.
  - unfold settle. by destruct (pendingResets st).
  - unfold showOptimalRoute in H. case_decide; simplify_eq/=; [done|].
    destruct (calculateOptimalPath _); by simplify_eq/=.
  - unfold saveCurrentPath. by case_decide.
Qed.

Lemma reachable_epsilon (st : State) :
  reachable st → ∃ n, epsilon st = epsilonAfter n.
Proof.
  induction 1 as [|st c st' _ [n Hn] Hexec]; [by exists 0|].
  apply exec_epsilon in Hexec.
  destruct c;
    try (match type of Hexec with _ ∧ _ => destruct Hexec as [_ Heps] end;
         exists n; by rewrite Heps).
  - destruct Hexec as [[_ ->]|[(_ & _ & ->)|(_ & _ & ->)]]; [by exists n| |by exists n].
    exists (S n). by rewrite Hn.
  - by exists 0.
Qed.

(** C4: the decay is not applied once per completed episode.  The
    agent walks from the start into the gem: the episode is closed, epsilon
    is [0.2 * 0.995], and the agent stays on the gem until the
    reset-to-start timer fires.  A call of [step] before that, whose draws
    explore and pick [down], is clamped onto the gem again: the same
    trajectory grows by one step, the episode count becomes 2 and epsilon is
    decayed a second time, below one decay of 0.2.  The timer then puts the
    agent back to the start with both decays in place. *)
Theorem epsilon_decays_twice_in_one_episode :
  trajectoryView <$> run gemApproach initialState
    = Some ([(0, 0); (1, 0); (2, 0); (3, 0); (4, 0); (4, 1); (4, 2); (4, 3)]%Z,
            (4, 4)%Z, 1%Z, (0.2 * 0.995)%float, 1) ∧
  trajectoryView <$> run (gemApproach ++ [forced Down]) initialState
    = Some ([(0, 0); (1, 0); (2, 0); (3, 0); (4, 0); (4, 1); (4, 2); (4, 3); (4, 4)]%Z,
            (4, 4)%Z, 2%Z, (0.2 * 0.995 * 0.995)%float, 2) ∧
  trajectoryView <$> run (gemApproach ++ [forced Down; Settle]) initialState
    = Some ([], (0, 0)%Z, 2%Z, (0.2 * 0.995 * 0.995)%float, 1) ∧
  flt (0.2 * 0.995 * 0.995) (decayEpsilon 0.2).
Proof. repeat split; by vm_compute. Qed.

(** ** Concrete runs *)

(** An exploring step to the right from the start costs 0.1 and ends
    nothing. *)
Example step_right_from_start :
  observe <$>
    step {| explore := 0.1%float; pick := 0.99%float |} (mount initialState)
  = Some (0.2, (0, 1)%Z, 1%Z, 0%Z, -0.1, neg_infinity)%float.
Proof. by vm_compute. Qed.

(** Stepping down from (3,4) reaches the gem: reward 10, one episode more,
    epsilon times 0.995. *)
Example step_down_into_gem :
  observe <$>
    step {| explore := 0.1%float; pick := 0.3%float |}
      (setAgentPos (3, 4)%Z (mount initialState))
  = Some (0.2 * 0.995, (4, 4)%Z, 1%Z, 1%Z, 10, 10)%float.
Proof. by vm_compute. Qed.

(** Stepping right from (1,2) hits the skull at (1,3): reward -10. *)
Example step_right_into_skull :
  observe <$>
    step {| explore := 0.1%float; pick := 0.8%float |}
      (setAgentPos (1, 2)%Z (mount initialState))
  = Some (0.2 * 0.995, (1, 3)%Z, 1%Z, 1%Z, -10, -10)%float.
Proof. by vm_compute. Qed.

(** The first update of a fresh table: 0 + 0.1 * (-0.1 + 0.9 * 0 - 0). *)
Example first_update :
  (q ← qLearningUpdate ∅ (0, 0)%Z Right (-0.1)%float (0, 1)%Z;
   entry ← q !! "0,0";
   entry !! Right)
  = Some (0.1 * -0.1)%float.
Proof. by vm_compute. Qed.

(** The exploitation branch on a fresh table takes [up], the first of four
    equal values. *)
Example greedy_on_fresh_table :
  fst <$> chooseAction 0.2%float {| explore := 0.9%float; pick := 0%float |} (0, 0)%Z ∅
  = Some Up.
Proof. by vm_compute. Qed.

(** The rate after one, two and six hundred episodes. *)
Example epsilon_after_episodes :
  epsilonAfter 1 = (0.2 * 0.995)%float ∧
  epsilonAfter 2 = (0.2 * 0.995 * 0.995)%float ∧
  epsilonAfter floorEpisode = 0.01%float.
Proof. by vm_compute. Qed.

(** * Further properties *)

(** ** State keys *)

Lemma pretty_N_go_commaFree (x : N) (s : string) :
  commaFree s → commaFree (pretty_N_go x s).
Proof.
  revert s. induction (N.lt_wf_0 x) as [x _ IH]; intros s Hs.
  assert (x = 0 ∨ 0 < x)%N as [->|Hx] by lia.
  - by rewrite pretty_N_go_0.
  - rewrite pretty_N_go_step by done. apply IH; [by apply N.div_lt|].
    split; [|done]. unfold pretty_N_char. by repeat case_match.
Qed.

Lemma pretty_Z_commaFree (z : Z) : commaFree (pretty z).
Proof.
  assert (∀ p : positive, commaFree (pretty p)) as Hpos.
  { intros p. unfold pretty, pretty_positive, pretty, pretty_N.
    case_decide; [done|]. by apply pretty_N_go_commaFree. }
  destruct z as [|p|p]; [done|apply Hpos|]. split; [done|apply Hpos].
Qed.

Lemma split_at_comma (s1 s2 t1 t2 : string) :
  commaFree s1 → commaFree s2 →
  s1 +:+ "," +:+ t1 = s2 +:+ "," +:+ t2 → s1 = s2 ∧ t1 = t2.
Proof.
  revert s2. induction s1 as [|c s1 IH]; intros [|c' s2] H1 H2 Heq;
    simpl in *; simplify_eq/=.
  - done.
  - by destruct H2.
  - by destruct H1.
  - destruct H1 as [_ H1], H2 as [_ H2].
    destruct (IH s2 H1 H2) as [-> ->]; done.
Qed.

(** X1 ([getStateKey], line 78): the key of a state names its cell: two
    positions with the same key [row,col] are the same position, so no two
    cells share a row of the Q-table. *)
Theorem getStateKey_inj (pos pos' : Position) :
  getStateKey pos = getStateKey pos' → pos = pos'.
Proof.
  destruct pos as [r c], pos' as [r' c']. unfold getStateKey, JS.toString. simpl.
  intros Heq. apply split_at_comma in Heq as [Hr Hc]; try apply pretty_Z_commaFree.
  apply (inj pretty) in Hr. apply (inj pretty) in Hc. by subst.
Qed.

Lemma getStateKey_inj_witness :
  getStateKey (3, 1)%Z = "3,1" ∧ ((3, 1) = (3, 1))%Z.
Proof.
  split; [reflexivity|]. apply (getStateKey_inj (3, 1)%Z (3, 1)%Z). reflexivity.
Defined.

(** ** Environment on any grid *)

(** Two numbers told apart by a comparison. *)
Ltac float_discr :=
  let H := fresh in
  intros H;
  match type of H with
  | Some ?a = Some _ =>
      apply (f_equal (fun o => match o with Some x => (x =? a)%float | None => false end)) in H;
      vm_compute in H; discriminate H
  | ?a = _ =>
      apply (f_equal (fun x => (x =? a)%float)) in H; vm_compute in H; discriminate H
  end.

Lemma reward_values_distinct :
  Some 0%float ≠ Some 10%float ∧ Some 0%float ≠ Some (-10)%float ∧
  Some (-0.1)%float ≠ Some 10%float ∧ Some (-0.1)%float ≠ Some (-10)%float ∧
  Some 10%float ≠ Some 0%float ∧ Some 10%float ≠ Some (-0.1)%float ∧
  Some (-10)%float ≠ Some 0%float ∧ Some (-10)%float ≠ Some (-0.1)%float ∧
  Some 10%float ≠ Some (-10)%float ∧ Some (-10)%float ≠ Some 10%float.
Proof. repeat split; float_discr. Qed.

(** X2 ([getReward] and [isTerminalState], lines 91-103): on any grid the
    two functions throw on the same positions, and a position is terminal
    exactly when its reward is 10 or -10, not terminal exactly when its
    reward is 0 or -0.1. *)
Theorem terminal_iff_big_reward (grid : Grid) (pos : Position) :
  (getReward grid pos = None ↔ isTerminalState grid pos = None) ∧
  (isTerminalState grid pos = Some true ↔
     getReward grid pos = Some 10%float ∨ getReward grid pos = Some (-10)%float) ∧
  (isTerminalState grid pos = Some false ↔
     getReward grid pos = Some 0%float ∨ getReward grid pos = Some (-0.1)%float).
Proof.
  destruct reward_values_distinct as (D1 & D2 & D3 & D4 & D5 & D6 & D7 & D8 & D9 & D10).
  unfold getReward, isTerminalState. case_decide.
  - intuition congruence.
  - destruct (cellAt grid pos) as [[[]|]|]; simpl; intuition congruence.
Qed.

Lemma JS_index_None {A} (l : list A) (i : Z) :
  JS.index l i = None ↔ (i < 0 ∨ Z.of_nat (length l) ≤ i)%Z.
Proof.
  unfold JS.index. destruct (Z.ltb_spec i 0) as [Hneg|Hpos].
  - split; [by left|done].
  - rewrite lookup_ge_None. lia.
Qed.

(** X3 ([getReward] and [isTerminalState], lines 91-103): what the
    unguarded access [grid[pos[0]][pos[1]]] does off a constructed grid.  A
    row index outside the grid makes both functions throw; a column index
    outside an existing row reads [undefined], which pays -0.1 and is not
    terminal. *)
Theorem cell_access_out_of_range (grid : Grid) (pos : Position) :
  grid ≠ [] →
  ((pos.1 < 0 ∨ Z.of_nat (length grid) ≤ pos.1)%Z →
     getReward grid pos = None ∧ isTerminalState grid pos = None) ∧
  (∀ row, JS.index grid pos.1 = Some row →
     (pos.2 < 0 ∨ Z.of_nat (length row) ≤ pos.2)%Z →
     getReward grid pos = Some (-0.1)%float ∧ isTerminalState grid pos = Some false).
Proof.
  intros Hgrid.
  assert (length grid ≠ 0) as Hlen by (by destruct grid).
  unfold getReward, isTerminalState, cellAt.
  rewrite !decide_False by done. split.
  - intros Hrow%JS_index_None. by rewrite Hrow.
  - intros row Hrow Hcol%JS_index_None. rewrite Hrow. simpl. by rewrite Hcol.
Qed.

Lemma cell_access_out_of_range_witness :
  (((5, 0)%Z.1 < 0 ∨ Z.of_nat (length initializeGrid) ≤ (5, 0)%Z.1)%Z →
     getReward initializeGrid (5, 0)%Z = None ∧
     isTerminalState initializeGrid (5, 0)%Z = None) ∧
  (∀ row, JS.index initializeGrid (5, 0)%Z.1 = Some row →
     ((5, 0)%Z.2 < 0 ∨ Z.of_nat (length row) ≤ (5, 0)%Z.2)%Z →
     getReward initializeGrid (5, 0)%Z = Some (-0.1)%float ∧
     isTerminalState initializeGrid (5, 0)%Z = Some false).
Proof. apply (cell_access_out_of_range initializeGrid (5, 0)%Z). discriminate. Defined.

(** ** Policy *)

Lemma ensureEntry_idem (k : string) (q : QTableState) :
  ensureEntry k (ensureEntry k q) = ensureEntry k q.
Proof.
  unfold ensureEntry at 1. rewrite ensureEntry_lookup.
  destruct (q !! k); [done|]. by rewrite decide_True.
Qed.

Lemma chooseAction_table eps rnd pos q a q' :
  chooseAction eps rnd pos q = Some (a, q') → q' = ensureEntry (getStateKey pos) q.
Proof.
  unfold chooseAction. destruct (_ <? _)%float.
  - destruct (JS.Math_floor _) as [i|]; simpl; [|done].
    destruct (JS.index ACTIONS i); simpl; congruence.
  - destruct (ensureEntry _ _ !! _); simpl; congruence.
Qed.

(** X4 ([chooseAction], lines 105-130): whatever the draws are, a call
    leaves the table with an entry for the current state, keeps every entry
    it found, touches no other key, gives a state it did not find the entry
    with 0 for each action, and chooses the same action again on the table it
    returns. *)
Theorem chooseAction_materialises (eps : float) (rnd : Random) (pos : Position)
    (q q' : QTableState) (a : Action) :
  chooseAction eps rnd pos q = Some (a, q') →
  is_Some (q' !! getStateKey pos) ∧
  (∀ k entry, q !! k = Some entry → q' !! k = Some entry) ∧
  (∀ k, k ≠ getStateKey pos → q' !! k = q !! k) ∧
  (q !! getStateKey pos = None → q' !! getStateKey pos = Some zeroEntry) ∧
  chooseAction eps rnd pos q' = Some (a, q').
Proof.
  intros Hchoose. pose proof (chooseAction_table _ _ _ _ _ _ Hchoose) as ->.
  repeat split.
  - rewrite ensureEntry_lookup. destruct (q !! getStateKey pos); [done|].
    by rewrite decide_True.
  - intros k entry Hk. by rewrite ensureEntry_lookup, Hk.
  - intros k Hne. rewrite ensureEntry_lookup. destruct (q !! k); [done|].
    by rewrite decide_False.
  - intros Hnone. by rewrite ensureEntry_lookup, Hnone, decide_True.
  - unfold chooseAction in *. by rewrite ensureEntry_idem.
Qed.

Lemma chooseAction_materialises_witness :
  is_Some (<["0,0" := zeroEntry]> (∅ : QTableState) !! getStateKey (0, 0)%Z) ∧
  (∀ k entry, (∅ : QTableState) !! k = Some entry →
     <["0,0" := zeroEntry]> (∅ : QTableState) !! k = Some entry) ∧
  (∀ k, k ≠ getStateKey (0, 0)%Z →
     <["0,0" := zeroEntry]> (∅ : QTableState) !! k = (∅ : QTableState) !! k) ∧
  ((∅ : QTableState) !! getStateKey (0, 0)%Z = None →
     <["0,0" := zeroEntry]> (∅ : QTableState) !! getStateKey (0, 0)%Z = Some zeroEntry) ∧
  chooseAction 0.2%float rightDraw (0, 0)%Z (<["0,0" := zeroEntry]> ∅)
    = Some (Right, <["0,0" := zeroEntry]> ∅).
Proof.
  apply (chooseAction_materialises 0.2%float rightDraw (0, 0)%Z ∅).
  reflexivity.
Defined.

(** X5 ([chooseAction], lines 105-130): a greedy call on a state with no
    entry creates the all-zero entry and returns [up], the first element of
    [ACTIONS]. *)
Theorem chooseAction_unvisited_goes_up (eps : float) (rnd : Random) (pos : Position)
    (q : QTableState) :
  q !! getStateKey pos = None →
  (explore rnd <? eps)%float = false →
  chooseAction eps rnd pos q = Some (Up, <[getStateKey pos := zeroEntry]> q).
Proof.
  intros Hnone Hgreedy. unfold chooseAction, ensureEntry.
  rewrite Hgreedy, Hnone, lookup_insert_eq. done.
Qed.

Lemma chooseAction_unvisited_goes_up_witness :
  chooseAction 0.2%float {| explore := 0.5%float; pick := 0.75%float |} (2, 3)%Z ∅
  = Some (Up, <[getStateKey (2, 3)%Z := zeroEntry]> ∅).
Proof.
  apply (chooseAction_unvisited_goes_up 0.2%float
           {| explore := 0.5%float; pick := 0.75%float |} (2, 3)%Z ∅);
    reflexivity.
Defined.

(** ** The published path *)

(** What the loop visits when no cell counts as terminal. *)
Lemma walk_mountGrid (q : QTableState) (fuel : nat) :
  ∀ pos path, inBounds pos →
    ∃ visited stop,
      walk mountGrid q fuel pos path = Some (path ++ visited, stop) ∧
      length visited ≤ fuel ∧
      (0 < fuel → visited !! 0 = Some pos) ∧
      Forall inBounds visited ∧
      greedyChain q visited ∧
      (length visited < fuel →
         ∃ p, last visited = Some p ∧ q !! getStateKey p = None).
Proof.
  induction fuel as [|fuel IH]; intros pos path Hpos; simpl.
  - exists [], pos. rewrite app_nil_r. split; [done|]. split; [done|].
    split; [lia|]. split; [done|]. split; [|simpl; lia].
    intros i p p' Hp. by rewrite lookup_nil in Hp.
  - destruct (q !! getStateKey pos) as [entry|] eqn:Hentry.
    + destruct (IH (getNextPosition pos (greedyAction entry)) (path ++ [pos]))
        as (visited & stop & Hwalk & Hlen & Hhead & Hin & Hchain & Hlast).
      { by apply getNextPosition_inBounds. }
      exists (pos :: visited), stop. rewrite Hwalk, <- app_assoc. simpl.
      split; [done|]. split; [lia|]. split; [done|]. split; [by constructor|]. split.
      * intros [|i] p p' Hp Hp'; simpl in *.
        -- simplify_eq. exists entry. split; [done|].
           assert (0 < fuel) as Hfuel.
           { apply lookup_lt_Some in Hp'. lia. }
           specialize (Hhead Hfuel). congruence.
        -- by eapply Hchain.
      * intros Hshort. destruct Hlast as (p & Hp & Hnone); [lia|].
        exists p. split; [|done]. destruct visited; [done|]. done.
    + exists [pos], pos. split; [done|]. split; [simpl; lia|]. split; [done|].
      split; [by apply Forall_singleton|]. split.
      * intros [|i] p p' Hp Hp'; simpl in *; simplify_eq.
      * intros _. by exists pos.
Qed.

(** X6 ([calculateOptimalPath], lines 132-164): as [step] and
    [showOptimalRoute] call it, the function returns for every table; the
    path starts at (0,0), has at most 50 positions, all on the grid, each
    position follows from the one before it by the greedy action of that
    position's entry, and a path shorter than 50 ends on a cell the table has
    no entry for. *)
Theorem calculateOptimalPath_shape (q : QTableState) :
  ∃ path,
    calculateOptimalPath q = Some path ∧
    path !! 0 = Some (0, 0)%Z ∧
    length path ≤ 50 ∧
    Forall inBounds path ∧
    greedyChain q path ∧
    (length path < 50 → ∃ p, last path = Some p ∧ q !! getStateKey p = None).
Proof.
  assert (inBounds (0, 0)%Z) as H0 by (unfold inBounds, GRID_SIZE; simpl; lia).
  destruct (walk_mountGrid q maxSteps (0, 0)%Z [] H0)
    as (visited & stop & Hwalk & Hlen & Hhead & Hin & Hchain & Hlast).
  exists visited. unfold calculateOptimalPath, calculateOptimalPathIn.
  rewrite Hwalk. simpl. split; [done|]. split; [|done].
  apply Hhead. unfold maxSteps. lia.
Qed.

(** ** One step, taken apart *)

Lemma qLearningUpdate_inv q state a r next q' :
  qLearningUpdate q state a r next = Some q' →
  ∃ entry v,
    ensureEntry (getStateKey next) (ensureEntry (getStateKey state) q)
      !! getStateKey state = Some entry ∧
    q' = <[getStateKey state := <[a := v]> entry]>
           (ensureEntry (getStateKey next) (ensureEntry (getStateKey state) q)).
Proof.
  unfold qLearningUpdate. intros H.
  destruct (ensureEntry _ _ !! getStateKey next) as [nextEntry|]; simplify_eq/=.
  destruct (ensureEntry _ _ !! getStateKey state) as [entry|]; simplify_eq/=.
  eauto.
Qed.

Lemma qLearningUpdate_defined q state a r next :
  is_Some (qLearningUpdate q state a r next).
Proof.
  unfold qLearningUpdate.
  assert (∀ k, (k = getStateKey state ∨ k = getStateKey next) →
            is_Some (ensureEntry (getStateKey next)
                       (ensureEntry (getStateKey state) q) !! k)) as Hsome.
  { intros k Hk. rewrite ensureEntry_twice_lookup. destruct (q !! k); [done|].
    by rewrite decide_True. }
  destruct (Hsome (getStateKey next)) as [e1 ->]; [by right|]. simpl.
  destruct (Hsome (getStateKey state)) as [e2 ->]; [by left|]. simpl. done.
Qed.

(** Everything a call of [step] on a constructed grid does. *)
Lemma step_inv (rnd : Random) (st st' : State) :
  length (grid st) ≠ 0 → step rnd st = Some st' →
  ∃ a r q' t,
    let q1 := ensureEntry (getStateKey (agentPos st)) (qTable st) in
    let next := getNextPosition (agentPos st) a in
    chooseAction (epsilon st) rnd (agentPos st) (qTable st) = Some (a, q1) ∧
    getReward (grid st) next = Some r ∧
    qLearningUpdate q1 (agentPos st) a r next = Some q' ∧
    isTerminalState (grid st) next = Some t ∧
    grid st' = grid st ∧ agentPos st' = next ∧ qTable st' = q' ∧
    currentPath st' = currentPath st ++
      [ {| ps_position := agentPos st; ps_action := a; ps_reward := r |} ] ∧
    stepCount st' = (stepCount st + 1)%Z ∧
    totalReward st' = (totalReward st + r)%float ∧
    savedPaths st' = savedPaths st ∧
    showOptimalPath st' = showOptimalPath st ∧
    isRunning st' = isRunning st ∧
    episodeCount st' = (if t then episodeCount st + 1 else episodeCount st)%Z ∧
    epsilon st' = (if t then decayEpsilon (epsilon st) else epsilon st) ∧
    (if t then calculateOptimalPath q' = Some (optimalPath st')
     else optimalPath st' = optimalPath st) ∧
    bestEpisodeReward st'
      = (if t && (bestEpisodeReward st <? sumRewards (currentPath st) + r)%float
         then (sumRewards (currentPath st) + r)%float else bestEpisodeReward st).
Proof.
  intros Hgrid. unfold step. rewrite decide_False by done. intros H.
  destruct (chooseAction _ _ _ _) as [[a q1]|] eqn:Hchoose; simplify_eq/=.
  pose proof (chooseAction_table _ _ _ _ _ _ Hchoose) as ->.
  destruct (getReward _ _) as [r|] eqn:Hr; simplify_eq/=.
  destruct (qLearningUpdate _ _ _ _ _) as [q'|] eqn:Hq'; simplify_eq/=.
  destruct (isTerminalState _ _) as [t|] eqn:Ht; simplify_eq/=.
  exists a, r, q', t. destruct t; simplify_eq/=.
  - unfold finishEpisode in H.
    destruct (calculateOptimalPath q') as [path|] eqn:Hpath; simplify_eq/=.
    destruct (_ <? _)%float; simpl; repeat split; done.
  - repeat split; done.
Qed.

(** ** What every reachable state satisfies *)

Lemma getReward_isReward grid pos r :
  length grid ≠ 0 → getReward grid pos = Some r → isReward r.
Proof.
  intros Hgrid. unfold getReward, isReward. rewrite decide_False by done.
  destruct (cellAt grid pos) as [cellType|]; simpl; [|done].
  intros [= <-]. repeat case_decide; auto.
Qed.

Lemma wellFormedTable_ensureEntry q pos :
  wellFormedTable q → inBounds pos → wellFormedTable (ensureEntry (getStateKey pos) q).
Proof.
  intros Hq Hpos k entry. rewrite ensureEntry_lookup.
  destruct (q !! k) as [e|] eqn:Hk.
  - intros [= <-]. by apply Hq.
  - case_decide; [|done]. intros [= <-]. split; [by exists pos|].
    intros a. by rewrite zeroEntry_lookup.
Qed.

Lemma wellFormedTable_update q state a r next q' :
  wellFormedTable q → inBounds state → inBounds next →
  qLearningUpdate q state a r next = Some q' → wellFormedTable q'.
Proof.
  intros Hq Hstate Hnext (entry & v & Hentry & ->)%qLearningUpdate_inv.
  assert (wellFormedTable
            (ensureEntry (getStateKey next) (ensureEntry (getStateKey state) q))) as Hq2
    by (apply wellFormedTable_ensureEntry; [apply wellFormedTable_ensureEntry|]; done).
  intros k e. destruct (decide (k = getStateKey state)) as [->|Hne].
  - rewrite lookup_insert_eq. intros [= <-]. split; [by exists state|].
    intros b. destruct (decide (b = a)) as [->|Hb].
    + by rewrite lookup_insert_eq.
    + rewrite lookup_insert_ne by done. by apply (Hq2 _ _ Hentry).
  - rewrite lookup_insert_ne by done. apply Hq2.
Qed.

Lemma connectedTo_snoc path agent a r :
  connectedTo path agent →
  connectedTo (path ++ [ {| ps_position := agent; ps_action := a; ps_reward := r |} ])
    (getNextPosition agent a).
Proof.
  intros Hpath i s Hs.
  destruct (decide (i < length path)) as [Hi|Hi].
  - rewrite lookup_app_l in Hs by done. rewrite (Hpath i s Hs).
    destruct (decide (S i < length path)) as [Hi'|Hi'].
    + rewrite lookup_app_l by done.
      by destruct (lookup_lt_is_Some_2 path (S i) Hi') as [s' ->].
    + rewrite lookup_app_r by lia. rewrite (lookup_ge_None_2 path (S i)) by lia.
      by replace (S i - length path) with 0 by lia.
  - rewrite lookup_app_r in Hs by lia.
    destruct (i - length path) as [|n] eqn:Hn; simpl in Hs; [|by destruct n].
    simplify_eq. rewrite lookup_app_r by lia.
    by replace (S i - length path) with 1 by lia.
Qed.

Lemma calculateOptimalPath_pathShape q path :
  calculateOptimalPath q = Some path → pathShape path.
Proof.
  assert (inBounds (0, 0)%Z) as H0 by (unfold inBounds, GRID_SIZE; simpl; lia).
  destruct (walk_mountGrid q maxSteps (0, 0)%Z [] H0)
    as (visited & stop & Hwalk & Hlen & Hhead & Hin & _).
  unfold calculateOptimalPath, calculateOptimalPathIn. rewrite Hwalk. simpl.
  intros [= <-]. right. split; [|done]. apply Hhead. unfold maxSteps. lia.
Qed.

Lemma step_invariant rnd st st' :
  engineInvariant st → step rnd st = Some st' → engineInvariant st'.
Proof.
  intros Hinv Hstep.
  destruct (decide (length (grid st) = 0)) as [Hempty|Hgrid].
  { unfold step in Hstep. rewrite decide_True in Hstep by done. by simplify_eq. }
  destruct Hinv as (Hg & Hagent & Htable & Hsteps & Hconn & Hcount & Hlen & Hpath).
  destruct (step_inv rnd st st' Hgrid Hstep)
    as (a & r & q' & t & _ & Hr & Hq' & _ & Hg' & Hagent' & Htable' & Hpath'
        & Hsc & _ & _ & _ & _ & Hec & _ & Hopt & _).
  assert (inBounds (getNextPosition (agentPos st) a)) as Hnext
    by (by apply getNextPosition_inBounds).
  unfold engineInvariant.
  rewrite Hg', Hagent', Htable', Hpath', Hsc, Hec.
  split; [done|]. split; [done|]. split.
  { eapply wellFormedTable_update; [| | |exact Hq']; try done.
    by apply wellFormedTable_ensureEntry. }
  split.
  { apply Forall_app. split; [done|]. apply Forall_singleton. split; [done|].
    by eapply getReward_isReward. }
  split; [by apply connectedTo_snoc|].
  split; [destruct t; lia|].
  split; [rewrite length_app; simpl; lia|].
  destruct t; [by eapply calculateOptimalPath_pathShape|by rewrite Hopt].
Qed.

Lemma connectedTo_nil agent : connectedTo [] agent.
Proof. intros i s Hs. by rewrite lookup_nil in Hs. Qed.

Lemma inBounds_start : inBounds (0, 0)%Z.
Proof. unfold inBounds, GRID_SIZE. simpl. lia. Qed.

Lemma exec_invariant c st st' :
  engineInvariant st → exec c st = Some st' → engineInvariant st'.
Proof.
  intros Hinv. destruct c; simpl; intros Hexec; simplify_eq/=.
  - destruct Hinv as (_ & Hrest). split; [by right|done].
  - by eapply step_invariant.
  - unfold settle. destruct (pendingResets st) eqn:Hpending; [done|].
    destruct Hinv as (Hg & _ & Htable & _ & _ & Hcount & _ & Hpath).
    split; [done|]. split; [apply inBounds_start|]. split; [done|].
    split; [by apply Forall_nil|]. split; [apply connectedTo_nil|].
    split; [done|]. split; [simpl; lia|done].
  - done.
  - split; [by right|]. split; [apply inBounds_start|]. split; [done|].
    split; [by apply Forall_nil|]. split; [apply connectedTo_nil|].
    split; [simpl; lia|]. split; [simpl; lia|by left].
  - unfold showOptimalRoute in Hexec. case_decide; simplify_eq/=; [done|].
    destruct (calculateOptimalPath _) as [path|] eqn:Hpath; simplify_eq/=.
    destruct Hinv as (? & ? & ? & ? & ? & ? & ? & _).
    do 7 (split; [done|]). by eapply calculateOptimalPath_pathShape.
  - done.
  - unfold saveCurrentPath. by case_decide.
Qed.

Lemma reachable_invariant st : reachable st → engineInvariant st.
Proof.
  induction 1 as [|st c st' _ IH Hexec]; [|by eapply exec_invariant].
  split; [by left|]. split; [apply inBounds_start|]. split; [done|].
  split; [by apply Forall_nil|]. split; [apply connectedTo_nil|].
  split; [simpl; lia|]. split; [simpl; lia|by left].
Qed.

Lemma getStateKey_gridKeys pos : inBounds pos → getStateKey pos ∈ gridKeys.
Proof.
  destruct pos as [r c]. unfold inBounds, GRID_SIZE. simpl. intros [Hr Hc].
  assert (r = 0 ∨ r = 1 ∨ r = 2 ∨ r = 3 ∨ r = 4)%Z as Hrs by lia.
  assert (c = 0 ∨ c = 1 ∨ c = 2 ∨ c = 3 ∨ c = 4)%Z as Hcs by lia.
  clear Hr Hc.
  destruct Hrs as [->|[->|[->|[->| ->]]]], Hcs as [->|[->|[->|[->| ->]]]];
    apply (bool_decide_unpack _); by vm_compute.
Qed.

Lemma reachable_run (cs : list Command) (st : State) :
  run cs initialState = Some st → reachable st.
Proof.
  revert st. induction cs as [|c cs IH] using rev_ind; intros st.
  - intros [= <-]. apply reachable_initial.
  - unfold run. rewrite foldl_app. simpl.
    destruct (foldl _ _ cs) as [mid|] eqn:Hmid; [|done]. simpl. intros Hexec.
    apply (reachable_exec mid c); [by apply IH|done].
Qed.

(** The states used as examples are reachable. *)
Lemma reachable_afterRight : reachable afterRight.
Proof. apply (reachable_run [Mount; Step rightDraw]). by vm_compute. Qed.

Lemma reachable_besideSkull : reachable besideSkull.
Proof. apply (reachable_run skullApproach). by vm_compute. Qed.

Lemma reachable_afterSkull : reachable afterSkull.
Proof. apply (reachable_run (skullApproach ++ [Step downDraw])). by vm_compute. Qed.

(** X7 ([initializeGrid], [step], [reset], lines 63-76, 181-270): in every
    reachable state the grid is either the initial empty array or the fixed
    grid, and the agent is on one of the 25 cells. *)
Theorem grid_fixed_and_agent_inside (st : State) :
  reachable st →
  (grid st = [] ∨ grid st = initializeGrid) ∧ inBounds (agentPos st).
Proof. intros (Hg & Hagent & _)%reachable_invariant. done. Qed.

Lemma grid_fixed_and_agent_inside_witness :
  (grid afterRight = [] ∨ grid afterRight = initializeGrid) ∧
  inBounds (agentPos afterRight).
Proof. apply (grid_fixed_and_agent_inside afterRight), reachable_afterRight. Defined.

(** X8 ([chooseAction], [step], lines 105-130 and 181-242): in every
    reachable state each key of the Q-table is the key of a cell, each entry
    holds a value for all four actions, and the table has at most 25
    states. *)
Theorem table_states_are_cells (st : State) :
  reachable st →
  wellFormedTable (qTable st) ∧
  dom (qTable st) ⊆ gridKeys ∧
  size (qTable st) ≤ 25.
Proof.
  intros (_ & _ & Htable & _)%reachable_invariant.
  assert (dom (qTable st) ⊆ gridKeys) as Hdom.
  { intros k [entry Hk]%elem_of_dom.
    destruct (Htable k entry Hk) as [(pos & Hpos & ->) _].
    by apply getStateKey_gridKeys. }
  split; [done|]. split; [done|].
  rewrite <- size_dom. apply subseteq_size in Hdom.
  assert (size gridKeys = 25) as Hsize by (by vm_compute).
  lia.
Qed.

Lemma table_states_are_cells_witness :
  wellFormedTable (qTable afterSkull) ∧
  dom (qTable afterSkull) ⊆ gridKeys ∧
  size (qTable afterSkull) ≤ 25.
Proof. apply (table_states_are_cells afterSkull), reachable_afterSkull. Defined.

(** X9 ([step], lines 181-242): in every reachable state the recorded
    trajectory is a connected walk: every step starts on the grid, carries
    one of the rewards 10, -10, -0.1, leads to the position of the step after
    it, and the last step leads to the agent. *)
Theorem trajectory_is_connected_walk (st : State) :
  reachable st →
  Forall recordedStep (currentPath st) ∧
  connectedTo (currentPath st) (agentPos st).
Proof. intros (_ & _ & _ & Hsteps & Hconn & _)%reachable_invariant. done. Qed.

Lemma trajectory_is_connected_walk_witness :
  Forall recordedStep (currentPath afterSkull) ∧
  connectedTo (currentPath afterSkull) (agentPos afterSkull).
Proof. apply (trajectory_is_connected_walk afterSkull), reachable_afterSkull. Defined.

(** X10 ([step], [reset], lines 181-270): in every reachable state the
    episode count is between 0 and the step count, and the trajectory is no
    longer than the step count. *)
Theorem counters_ordered (st : State) :
  reachable st →
  (0 ≤ episodeCount st ≤ stepCount st)%Z ∧
  (Z.of_nat (length (currentPath st)) ≤ stepCount st)%Z.
Proof. intros (_ & _ & _ & _ & _ & Hcount & Hlen & _)%reachable_invariant. done. Qed.

Lemma counters_ordered_witness :
  (0 ≤ episodeCount afterSkull ≤ stepCount afterSkull)%Z ∧
  (Z.of_nat (length (currentPath afterSkull)) ≤ stepCount afterSkull)%Z.
Proof. apply (counters_ordered afterSkull), reachable_afterSkull. Defined.

(** X11 ([step], [showOptimalRoute], [reset], lines 181-278): in every
    reachable state the published optimal path is empty, or starts at (0,0),
    has at most 50 positions and stays on the grid. *)
Theorem published_path_shape (st : State) :
  reachable st → pathShape (optimalPath st).
Proof. intros (_ & _ & _ & _ & _ & _ & _ & Hpath)%reachable_invariant. done. Qed.

Lemma published_path_shape_witness : pathShape (optimalPath afterSkull).
Proof. apply (published_path_shape afterSkull), reachable_afterSkull. Defined.

(** ** The random index *)

Lemma digits2_pos_bound (m : positive) : (Z.pos m < 2 ^ Z.pos (digits2_pos m))%Z.
Proof.
  induction m as [m IH|m IH|]; simpl; [| |done];
    rewrite Pos2Z.inj_succ, Z.pow_succ_r by lia; lia.
Qed.

Lemma below_four (m : positive) (e : Z) :
  match match (e ?= -50)%Z with
        | Eq => Pos.compare_cont Eq m 4503599627370496%positive
        | Lt => Lt
        | Gt => Gt
        end with
  | Lt => true
  | _ => false
  end = true →
  (e < -50 ∨ (e = -50 ∧ Z.pos m < 2 ^ 52))%Z.
Proof.
  destruct (Z.compare_spec e (-50)) as [He|He|He]; [|by left|discriminate].
  rewrite Pos.compare_cont_spec.
  destruct (Pos.compare_spec m 4503599627370496%positive) as [?|Hm|?];
    try discriminate.
  intros _. right. split; [done|]. exact Hm.
Qed.

(** A number in [0, 4) has its floor among the indices 0, 1, 2, 3. *)
Lemma Math_floor_in_range (x : float) :
  fle 0 x → flt x 4 → ∃ i, JS.Math_floor x = Some i ∧ (0 ≤ i ≤ 3)%Z.
Proof.
  unfold fle, flt, JS.Math_floor. rewrite leb_cmp, ltb_cmp. unfold cmp.
  pose proof (Prim2SF_valid x) as Hvalid.
  change (Prim2SF 0) with (S754_zero false).
  change (Prim2SF 4) with (S754_finite false 4503599627370496 (-50)).
  destruct (Prim2SF x) as [s|s| |s m e].
  - intros _ _. exists 0%Z. split; [done|lia].
  - destruct s; cbn [SFcompare]; intros; discriminate.
  - cbn [SFcompare]; intros; discriminate.
  - destruct s; cbn [SFcompare]; [intros; discriminate|]. intros _ Hlt%below_four.
    cbn [valid_binary] in Hvalid. unfold bounded, canonical_mantissa, fexp in Hvalid.
    apply andb_prop in Hvalid as [Hcanon _]. apply Z.eqb_eq in Hcanon.
    pose proof (digits2_pos_bound m) as Hdigits.
    assert (Z.pos (digits2_pos m) ≤ 53)%Z as Hd by (unfold prec in Hcanon; lia).
    assert (2 ^ Z.pos (digits2_pos m) ≤ 2 ^ 53)%Z as Hm
      by (apply Z.pow_le_mono_r; lia).
    assert (e ≤ -50)%Z as He by (destruct Hlt as [?|[-> _]]; lia).
    assert (2 ^ 50 ≤ 2 ^ (- e))%Z as Hpow50 by (apply Z.pow_le_mono_r; lia).
    assert (e < -50 → 2 ^ 51 ≤ 2 ^ (- e))%Z as Hpow51
      by (intros; apply Z.pow_le_mono_r; lia).
    assert (Z.pos m < 2 ^ (- e) * 4)%Z as Hbound.
    { assert (2 ^ 53 = 2 ^ 51 * 4)%Z as H53 by reflexivity.
      assert (2 ^ 52 = 2 ^ 50 * 4)%Z as H52 by reflexivity.
      destruct Hlt as [Hlow|[_ Hm']].
      - specialize (Hpow51 Hlow). clear Hcanon Hd He Hlow Hpow50 H52.
        revert Hdigits Hm Hpow51 H53.
        generalize (2 ^ Z.pos (digits2_pos m))%Z (2 ^ (- e))%Z (2 ^ 53)%Z (2 ^ 51)%Z.
        intros. lia.
      - clear Hcanon Hd He Hpow51 H53 Hdigits Hm.
        revert Hm' Hpow50 H52.
        generalize (2 ^ (- e))%Z (2 ^ 52)%Z (2 ^ 50)%Z.
        intros. lia. }
    destruct (Z.leb_spec 0 e) as [?|_]; [lia|].
    eexists. split; [reflexivity|].
    assert (0 < 2 ^ (- e))%Z as Hpos by (apply Z.pow_pos_nonneg; lia).
    clear Hcanon Hd He Hlt Hpow50 Hpow51 Hdigits Hm.
    revert Hbound Hpos. generalize (2 ^ (- e))%Z. intros P Hbound Hpos.
    split; [apply Z.div_pos; lia|].
    apply Z.lt_succ_r, Z.div_lt_upper_bound; lia.
Qed.

Lemma chooseAction_defined eps rnd pos q :
  drawInRange rnd → ∃ a, chooseAction eps rnd pos q = Some (a, ensureEntry (getStateKey pos) q).
Proof.
  intros [Hlo Hhi]. unfold chooseAction. destruct (_ <? _)%float.
  - destruct (Math_floor_in_range _ Hlo Hhi) as (i & -> & Hi). simpl.
    assert (i = 0 ∨ i = 1 ∨ i = 2 ∨ i = 3)%Z as [->|[->|[->| ->]]] by lia;
      simpl; eauto.
  - assert (is_Some (ensureEntry (getStateKey pos) q !! getStateKey pos)) as [entry ->].
    { rewrite ensureEntry_lookup. destruct (q !! getStateKey pos); [done|].
      by rewrite decide_True. }
    simpl. eauto.
Qed.

(** X12 ([chooseAction], lines 115-116): when the first draw is below
    epsilon and the second draw scaled by [ACTIONS.length] lies in [0, 4),
    the call returns [ACTIONS[i]] for [i] the floor of the scaled draw, an
    index among 0, 1, 2, 3. *)
Theorem explore_picks_by_floor (eps : float) (rnd : Random) (pos : Position)
    (q : QTableState) :
  (explore rnd <? eps)%float = true →
  drawInRange rnd →
  ∃ i a,
    JS.Math_floor (pick rnd * ACTIONS_length)%float = Some i ∧
    (0 ≤ i ≤ 3)%Z ∧
    ACTIONS !! Z.to_nat i = Some a ∧
    chooseAction eps rnd pos q = Some (a, ensureEntry (getStateKey pos) q).
Proof.
  intros Hexplore [Hlo Hhi]. unfold chooseAction. rewrite Hexplore.
  destruct (Math_floor_in_range _ Hlo Hhi) as (i & Hfloor & Hi). rewrite Hfloor. simpl.
  exists i.
  assert (i = 0 ∨ i = 1 ∨ i = 2 ∨ i = 3)%Z as [->|[->|[->| ->]]] by lia;
    simpl; eexists; (split; [done|]); (split; [lia|]); split; reflexivity.
Qed.

Lemma explore_picks_by_floor_witness :
  ∃ i a,
    JS.Math_floor (pick rightDraw * ACTIONS_length)%float = Some i ∧
    (0 ≤ i ≤ 3)%Z ∧
    ACTIONS !! Z.to_nat i = Some a ∧
    chooseAction 0.2%float rightDraw (0, 0)%Z ∅
      = Some (a, ensureEntry (getStateKey (0, 0)%Z) ∅).
Proof.
  apply (explore_picks_by_floor 0.2%float rightDraw (0, 0)%Z ∅).
  - reflexivity.
  - split; reflexivity.
Defined.

Lemma getReward_defined pos : inBounds pos → is_Some (getReward initializeGrid pos).
Proof.
  intros [t Ht]%isTerminalState_defined. revert Ht.
  unfold getReward, isTerminalState. case_decide; [done|].
  destruct (cellAt initializeGrid pos); [done|discriminate].
Qed.

(** X13 ([step], lines 181-242): from a reachable state, with a draw in
    range, a call of [step] never throws. *)
Theorem step_never_throws (rnd : Random) (st : State) :
  reachable st → drawInRange rnd → is_Some (step rnd st).
Proof.
  intros (Hgrid & Hagent & _)%reachable_invariant Hdraw. unfold step.
  case_decide; [done|]. destruct Hgrid as [Hgrid|Hgrid]; [by rewrite Hgrid in *|].
  destruct (chooseAction_defined (epsilon st) rnd (agentPos st) (qTable st) Hdraw)
    as [a ->]. simpl.
  assert (inBounds (getNextPosition (agentPos st) a)) as Hnext
    by (by apply getNextPosition_inBounds).
  rewrite Hgrid.
  destruct (getReward_defined _ Hnext) as [r ->]. simpl.
  destruct (qLearningUpdate_defined (ensureEntry (getStateKey (agentPos st)) (qTable st))
              (agentPos st) a r (getNextPosition (agentPos st) a)) as [q' ->]. simpl.
  destruct (isTerminalState_defined _ Hnext) as [t ->]. simpl.
  destruct t; [|done]. unfold finishEpisode.
  destruct (walk_mountGrid q' maxSteps (0, 0)%Z [] inBounds_start)
    as (visited & stop & Hwalk & _).
  unfold calculateOptimalPath, calculateOptimalPathIn. rewrite Hwalk. simpl. done.
Qed.

Lemma step_never_throws_witness : is_Some (step rightDraw afterRight).
Proof.
  apply (step_never_throws rightDraw afterRight).
  - apply reachable_afterRight.
  - split; reflexivity.
Defined.

(** ** What a step does to the table *)

Lemma dom_ensureEntry (k : string) (q : QTableState) :
  dom (ensureEntry k q) = {[k]} ∪ dom q.
Proof.
  unfold ensureEntry. destruct (q !! k) as [entry|] eqn:Hk.
  - apply (elem_of_dom_2 (D := gset string)) in Hk. set_solver.
  - by rewrite dom_insert_L.
Qed.

(** X14 ([step], lines 181-242): a call on a constructed grid appends one
    step to the trajectory, recorded at the agent's position with the reward
    of the cell it leads to, moves the agent where that step leads, adds to
    the table's keys exactly the keys of the old and the new position, and
    leaves every stored value other than the one of the old position and the
    chosen action as it was. *)
Theorem step_writes_one_cell (rnd : Random) (st st' : State) :
  length (grid st) ≠ 0 → step rnd st = Some st' →
  ∃ s,
    currentPath st' = currentPath st ++ [s] ∧
    last (currentPath st') = Some s ∧
    ps_position s = agentPos st ∧
    agentPos st' = getNextPosition (agentPos st) (ps_action s) ∧
    getReward (grid st) (agentPos st') = Some (ps_reward s) ∧
    dom (qTable st')
      = {[getStateKey (agentPos st); getStateKey (agentPos st')]} ∪ dom (qTable st) ∧
    ∀ k b v, (k, b) ≠ (getStateKey (agentPos st), ps_action s) →
      qTable st !! k ≫= (.!! b) = Some v → qTable st' !! k ≫= (.!! b) = Some v.
Proof.
  intros Hgrid Hstep.
  destruct (step_inv rnd st st' Hgrid Hstep)
    as (a & r & q' & t & _ & Hr & Hq' & _ & _ & Hagent' & Htable' & Hpath' & _).
  apply qLearningUpdate_inv in Hq' as (entry & v & Hentry & ->).
  exists {| ps_position := agentPos st; ps_action := a; ps_reward := r |}.
  rewrite Hpath', Htable', Hagent', last_snoc. simpl.
  split; [done|]. split; [done|]. split; [done|]. split; [done|].
  split; [exact Hr|]. split.
  - rewrite dom_insert_L, !dom_ensureEntry. set_solver.
  - intros k b w Hne Hk.
    destruct (qTable st !! k) as [e|] eqn:He; [|done]. simpl in Hk.
    assert (ensureEntry (getStateKey (getNextPosition (agentPos st) a))
              (ensureEntry (getStateKey (agentPos st))
                 (ensureEntry (getStateKey (agentPos st)) (qTable st))) !! k = Some e)
      as Hkeep by (by rewrite !ensureEntry_lookup, He).
    destruct (decide (k = getStateKey (agentPos st))) as [->|Hk'].
    + rewrite lookup_insert_eq. simpl. rewrite lookup_insert_ne by congruence.
      congruence.
    + rewrite lookup_insert_ne by done. by rewrite Hkeep.
Qed.

Lemma step_writes_one_cell_witness :
  ∃ s,
    currentPath afterSkull = currentPath besideSkull ++ [s] ∧
    last (currentPath afterSkull) = Some s ∧
    ps_position s = agentPos besideSkull ∧
    agentPos afterSkull = getNextPosition (agentPos besideSkull) (ps_action s) ∧
    getReward (grid besideSkull) (agentPos afterSkull) = Some (ps_reward s) ∧
    dom (qTable afterSkull)
      = {[getStateKey (agentPos besideSkull); getStateKey (agentPos afterSkull)]}
        ∪ dom (qTable besideSkull) ∧
    ∀ k b v, (k, b) ≠ (getStateKey (agentPos besideSkull), ps_action s) →
      qTable besideSkull !! k ≫= (.!! b) = Some v →
      qTable afterSkull !! k ≫= (.!! b) = Some v.
Proof.
  apply (step_writes_one_cell downDraw besideSkull afterSkull).
  - discriminate.
  - vm_compute. reflexivity.
Defined.

(** X15 ([setQTable] callers: [step] lines 184-241, [reset] line 261): the
    table is emptied by reset, no other command removes a state from it, and
    no command other than reset and step changes it. *)
Theorem table_never_shrinks (c : Command) (st st' : State) :
  exec c st = Some st' →
  (c = Reset → qTable st' = ∅) ∧
  (c ≠ Reset → dom (qTable st) ⊆ dom (qTable st')) ∧
  (c ≠ Reset → (∀ rnd, c ≠ Step rnd) → qTable st' = qTable st).
Proof.
  intros Hexec. split; [|split].
  - intros ->. by simplify_eq/=.
  - intros Hne. destruct c; simplify_eq/=; try done.
    + destruct (decide (length (grid st) = 0)) as [Hempty|Hgrid].
      { unfold step in Hexec. rewrite decide_True in Hexec by done. by simplify_eq. }
      destruct (step_inv rnd st st' Hgrid Hexec)
        as (a & r & q' & t & _ & _ & Hq' & _ & _ & _ & -> & _).
      apply qLearningUpdate_inv in Hq' as (entry & v & Hentry & ->).
      rewrite dom_insert_L, !dom_ensureEntry. set_solver.
    + unfold settle. by destruct (pendingResets st).
    + unfold showOptimalRoute in Hexec. case_decide; simplify_eq/=; [done|].
      destruct (calculateOptimalPath _); by simplify_eq/=.
    + unfold saveCurrentPath. by case_decide.
  - intros Hne Hstep. destruct c; simplify_eq/=; try done.
    + by destruct (Hstep rnd).
    + unfold settle. by destruct (pendingResets st).
    + unfold showOptimalRoute in Hexec. case_decide; simplify_eq/=; [done|].
      destruct (calculateOptimalPath _); by simplify_eq/=.
    + unfold saveCurrentPath. by case_decide.
Qed.

Lemma table_never_shrinks_witness :
  (Step rightDraw = Reset → qTable afterRight = ∅) ∧
  (Step rightDraw ≠ Reset →
     dom (qTable (mount initialState)) ⊆ dom (qTable afterRight)) ∧
  (Step rightDraw ≠ Reset → (∀ rnd, Step rightDraw ≠ Step rnd) →
     qTable afterRight = qTable (mount initialState)).
Proof.
  apply (table_never_shrinks (Step rightDraw) (mount initialState) afterRight).
  vm_compute. reflexivity.
Defined.

(** ** Best episode *)

(** X16 ([step], lines 220-225): no command other than reset lowers the
    best episode reward; when it changes it has strictly risen, to the sum
    of the rewards of the trajectory, in a call that closed an episode. *)
Theorem best_episode_only_improves (c : Command) (st st' : State) :
  exec c st = Some st' → c ≠ Reset →
  bestEpisodeReward st' = bestEpisodeReward st ∨
  (flt (bestEpisodeReward st) (bestEpisodeReward st') ∧
   bestEpisodeReward st' = sumRewards (currentPath st') ∧
   episodeCount st' = (episodeCount st + 1)%Z).
Proof.
  intros Hexec Hne. destruct c; simplify_eq/=; try (by left).
  - destruct (decide (length (grid st) = 0)) as [Hempty|Hgrid].
    { unfold step in Hexec. rewrite decide_True in Hexec by done. simplify_eq. by left. }
    destruct (step_inv rnd st st' Hgrid Hexec)
      as (a & r & q' & t & _ & _ & _ & _ & _ & _ & _ & Hpath' & _ & _ & _ & _ & _
          & Hec & _ & _ & Hbest).
    rewrite Hbest, Hpath', sumRewards_snoc, Hec. simpl.
    destruct t; [|by left]. simpl.
    destruct (_ <? _)%float eqn:Hlt; [by right|by left].
  - unfold settle. destruct (pendingResets st); by left.
  - unfold showOptimalRoute in Hexec. case_decide; simplify_eq/=; [by left|].
    destruct (calculateOptimalPath _); simplify_eq/=. by left.
  - unfold saveCurrentPath. case_decide; by left.
Qed.

Lemma best_episode_only_improves_witness :
  bestEpisodeReward afterSkull = bestEpisodeReward besideSkull ∨
  (flt (bestEpisodeReward besideSkull) (bestEpisodeReward afterSkull) ∧
   bestEpisodeReward afterSkull = sumRewards (currentPath afterSkull) ∧
   episodeCount afterSkull = (episodeCount besideSkull + 1)%Z).
Proof.
  apply (best_episode_only_improves (Step downDraw) besideSkull afterSkull).
  - vm_compute. reflexivity.
  - discriminate.
Defined.

(** ** Buttons that only touch the display *)

(** X17 ([toggleSimulation], [showOptimalRoute], [saveCurrentPath] and the
    hide-path button, lines 166-179, 254-256, 272-278, 404): the start/pause,
    show, hide and save buttons leave epsilon, the grid, the agent, the
    Q-table, the trajectory, the counters and the rewards as they were. *)
Theorem display_commands_leave_learning_alone (c : Command) (st st' : State) :
  c = ToggleSimulation ∨ c = ShowOptimalRoute ∨ c = HideOptimalPath ∨
    (∃ now date, c = SaveCurrentPath now date) →
  exec c st = Some st' →
  learningState st' = learningState st.
Proof.
  intros [->|[->|[->|(now & date & ->)]]] Hexec; simplify_eq/=; try done.
  - unfold showOptimalRoute in Hexec. case_decide; simplify_eq/=; [done|].
    destruct (calculateOptimalPath _); by simplify_eq/=.
  - unfold saveCurrentPath. by case_decide.
Qed.

Lemma display_commands_leave_learning_alone_witness :
  learningState (saveCurrentPath 5 6 afterRight) = learningState afterRight.
Proof.
  apply (display_commands_leave_learning_alone (SaveCurrentPath 5 6) afterRight).
  - right. right. right. exists 5%Z, 6%Z. reflexivity.
  - reflexivity.
Defined.

Lemma saveCurrentPath_nonempty now date st :
  currentPath st ≠ [] →
  saveCurrentPath now date st
  = setSavedPaths
      (savedPaths st ++
       [ {| sp_id := JS.toString now;
            sp_name := "Path " +:+ JS.toString (Z.of_nat (length (savedPaths st)) + 1);
            sp_steps := currentPath st;
            sp_totalReward := sumRewards (currentPath st);
            sp_timestamp := date |} ]) st.
Proof.
  intros Hne. unfold saveCurrentPath. rewrite decide_False; [done|].
  by destruct (currentPath st).
Qed.

(** X18 ([saveCurrentPath], lines 166-179): saving a non-empty trajectory
    twice appends two records with the same steps and the same total reward,
    named by consecutive numbers, and leaves the trajectory in place. *)
Theorem saveCurrentPath_twice (now date now' date' : Z) (st : State) :
  currentPath st ≠ [] →
  ∃ first second,
    savedPaths (saveCurrentPath now' date' (saveCurrentPath now date st))
      = savedPaths st ++ [first; second] ∧
    sp_steps first = currentPath st ∧ sp_steps second = currentPath st ∧
    sp_totalReward first = sp_totalReward second ∧
    sp_name first = "Path " +:+ JS.toString (Z.of_nat (length (savedPaths st)) + 1) ∧
    sp_name second = "Path " +:+ JS.toString (Z.of_nat (length (savedPaths st)) + 2) ∧
    currentPath (saveCurrentPath now' date' (saveCurrentPath now date st))
      = currentPath st.
Proof.
  intros Hne. rewrite (saveCurrentPath_nonempty now date st Hne).
  rewrite saveCurrentPath_nonempty by done. simpl.
  eexists _, _. rewrite <- app_assoc. simpl.
  split; [reflexivity|]. do 4 (split; [reflexivity|]). split; [|reflexivity].
  simpl. rewrite length_app. simpl. f_equal. f_equal. lia.
Qed.

Lemma saveCurrentPath_twice_witness :
  ∃ first second,
    savedPaths (saveCurrentPath 8 9 (saveCurrentPath 5 6 afterRight))
      = savedPaths afterRight ++ [first; second] ∧
    sp_steps first = currentPath afterRight ∧ sp_steps second = currentPath afterRight ∧
    sp_totalReward first = sp_totalReward second ∧
    sp_name first
      = "Path " +:+ JS.toString (Z.of_nat (length (savedPaths afterRight)) + 1) ∧
    sp_name second
      = "Path " +:+ JS.toString (Z.of_nat (length (savedPaths afterRight)) + 2) ∧
    currentPath (saveCurrentPath 8 9 (saveCurrentPath 5 6 afterRight))
      = currentPath afterRight.
Proof. apply (saveCurrentPath_twice 5 6 8 9 afterRight). discriminate. Defined.

(** X19 ([showOptimalRoute], lines 272-278): on an empty table the button
    does nothing; otherwise it publishes the path [calculateOptimalPath]
    computes from the table and switches the display on, after which the
    start cell is on the displayed path. *)
Theorem showOptimalRoute_spec (st : State) :
  (qTable st = ∅ → showOptimalRoute st = Some st) ∧
  (qTable st ≠ ∅ →
     ∃ path,
       calculateOptimalPath (qTable st) = Some path ∧
       showOptimalRoute st = Some (setShowOptimalPath true (setOptimalPath path st)) ∧
       (∀ st', showOptimalRoute st = Some st' → isOnOptimalPath st' 0 0 = true)).
Proof.
  unfold showOptimalRoute. split; intros Hq.
  - by rewrite decide_True.
  - rewrite decide_False by done.
    destruct (walk_mountGrid (qTable st) maxSteps (0, 0)%Z [] inBounds_start)
      as (visited & stop & Hwalk & _ & Hhead & _).
    assert (calculateOptimalPath (qTable st) = Some visited) as Hpath.
    { unfold calculateOptimalPath, calculateOptimalPathIn. by rewrite Hwalk. }
    exists visited. rewrite Hpath. simpl. split; [done|]. split; [done|].
    intros st' [= <-]. unfold isOnOptimalPath. simpl.
    destruct visited as [|p visited]; [by specialize (Hhead ltac:(unfold maxSteps; lia))|].
    specialize (Hhead ltac:(unfold maxSteps; lia)). simpl in Hhead. by simplify_eq.
Qed.

Lemma showOptimalRoute_spec_witness :
  showOptimalRoute initialState = Some initialState ∧
  ∃ path,
    calculateOptimalPath (qTable afterRight) = Some path ∧
    showOptimalRoute afterRight
      = Some (setShowOptimalPath true (setOptimalPath path afterRight)) ∧
    (∀ st', showOptimalRoute afterRight = Some st' → isOnOptimalPath st' 0 0 = true).
Proof.
  split.
  - apply (showOptimalRoute_spec initialState). reflexivity.
  - apply (showOptimalRoute_spec afterRight). discriminate.
Defined.

(** ** Rendering *)

(** X20 ([isOnOptimalPath], [getCellContent], [getCellClasses] and the
    cell markup, lines 280-324 and 369-372): a cell shows the path dot
    exactly when it carries the yellow path classes; no cell is on the path
    while the display is off; the agent's cell shows the robot on the orange
    classes whatever its type. *)
Theorem path_dot_matches_highlight (st : State) (i j : Z) :
  (showsPathDot st i j = true ↔
     getCellClasses st i j = baseClasses +:+ " " +:+ pathClasses) ∧
  (showOptimalPath st = false → isOnOptimalPath st i j = false) ∧
  getCellContent st (agentPos st).1 (agentPos st).2 = "🤖" ∧
  getCellClasses st (agentPos st).1 (agentPos st).2
    = baseClasses +:+ " " +:+ agentClasses.
Proof.
  split; [|split; [|split]].
  - unfold showsPathDot, getCellClasses, getCellContent.
    destruct (bool_decide (i = (agentPos st).1) && bool_decide (j = (agentPos st).2)).
    + rewrite andb_false_r. split; intros H; [done|by vm_compute in H].
    + destruct (cellTypeAt (grid st) i j) as [[]|], (isOnOptimalPath st i j); simpl;
        split; intros H; try done; by vm_compute in H.
  - unfold isOnOptimalPath. by intros ->.
  - unfold getCellContent. by rewrite !bool_decide_eq_true_2.
  - unfold getCellClasses. by rewrite !bool_decide_eq_true_2.
Qed.

(** ** Exploration rate *)

Lemma fallsFor_iter (n : nat) :
  ∀ e k, fallsFor n e = true → k < n →
    flt (Nat.iter (S k) decayEpsilon e) (Nat.iter k decayEpsilon e) ∧
    flt 0.01 (Nat.iter k decayEpsilon e).
Proof.
  induction n as [|n IH]; intros e k Hok Hk; [lia|].
  simpl in Hok. apply andb_prop in Hok as [[Hfall Hfloor]%andb_prop Hrest].
  destruct k as [|k]; [done|].
  rewrite (Nat.iter_succ_r (S k) decayEpsilon e), (Nat.iter_succ_r k decayEpsilon e).
  apply (IH (decayEpsilon e) k); [done|lia].
Qed.

(** X21 ([step], line 228): counted in closed episodes from a fresh
    engine, the exploration rate falls strictly and stays above 0.01 for
    the first 598 episodes, and is exactly 0.01 from episode 598 on. *)
Theorem epsilon_falls_then_rests (n : nat) :
  (n < restEpisode →
     flt (epsilonAfter (S n)) (epsilonAfter n) ∧ flt 0.01 (epsilonAfter n)) ∧
  (restEpisode ≤ n → epsilonAfter n = 0.01%float).
Proof.
  split.
  - intros Hn. apply (fallsFor_iter restEpisode); [by vm_compute|done].
  - induction 1 as [|n Hle IH]; [by vm_compute|].
    unfold epsilonAfter in *. simpl. rewrite IH. by vm_compute.
Qed.

Lemma epsilon_falls_then_rests_witness :
  (flt (epsilonAfter 1) (epsilonAfter 0) ∧ flt 0.01 (epsilonAfter 0)) ∧
  epsilonAfter 600 = 0.01%float.
Proof.
  split.
  - apply (epsilon_falls_then_rests 0). unfold restEpisode. lia.
  - apply (epsilon_falls_then_rests 600). unfold restEpisode. lia.
Defined.

(** X22 ([step], line 228): for any rate whose product with 0.995 is a
    number, the decayed rate [Math.max(prev * epsilonDecay, minEpsilon)] is
    the product or the floor 0.01, and is below neither. *)
Theorem decayEpsilon_floor (e : float) :
  number (e * epsilonDecay)%float →
  fle minEpsilon (decayEpsilon e) ∧
  fle (e * epsilonDecay)%float (decayEpsilon e) ∧
  (decayEpsilon e = (e * epsilonDecay)%float ∨ decayEpsilon e = minEpsilon).
Proof.
  intros Hx. unfold decayEpsilon, JS.Math_max. cbn [JS.Math_max_from].
  set (x := (e * epsilonDecay)%float) in *.
  rewrite (proj1 (number_is_nan x) Hx).
  change (JS.is_neg_zero neg_infinity) with false. rewrite andb_false_r.
  change (is_nan minEpsilon) with false.
  change (JS.is_pos_zero minEpsilon) with false. cbn [andb].
  assert (number minEpsilon) as Hmin by (by apply number_is_nan).
  assert (number neg_infinity) as Hinf by (by apply number_is_nan).
  destruct (neg_infinity <? x)%float eqn:Hlow.
  - destruct (x <? minEpsilon)%float eqn:Hlt.
    + split; [by apply fle_refl|]. split; [by apply flt_le|by right].
    + split; [by apply not_flt_le|]. split; [by apply fle_refl|by left].
  - change (neg_infinity <? minEpsilon)%float with true. cbn iota.
    split; [by apply fle_refl|]. split; [|by right].
    eapply fle_trans; [by apply (not_flt_le neg_infinity x)|].
    by apply neg_infinity_le.
Qed.

Lemma decayEpsilon_floor_witness :
  fle minEpsilon (decayEpsilon 0.2) ∧
  fle (0.2 * epsilonDecay)%float (decayEpsilon 0.2) ∧
  (decayEpsilon 0.2 = (0.2 * epsilonDecay)%float ∨ decayEpsilon 0.2 = minEpsilon).
Proof. apply (decayEpsilon_floor 0.2%float), number_is_nan. reflexivity. Defined.

(** X25 ([step], [reset], lines 40-42, 220-228, 258-270): epsilon starts
    at 0.2; [reset] puts it back to 0.2, a call of [step] that lands on a
    terminal cell counts one more episode and replaces epsilon by
    [max(epsilon * 0.995, 0.01)], and nothing else changes it; in every
    reachable state it lies in [0.01, 0.2], and no command but [reset] makes
    it grow. *)
Theorem epsilon_schedule (st : State) :
  reachable st →
  epsilon initialState = 0.2%float ∧
  fle 0.01 (epsilon st) ∧ fle (epsilon st) 0.2 ∧
  ∀ c st', exec c st = Some st' →
    match c with
    | Reset => epsilon st' = 0.2%float
    | Step rnd =>
        (length (grid st) = 0 ∧ st' = st) ∨
        (isTerminalState (grid st) (agentPos st') = Some true ∧
         episodeCount st' = (episodeCount st + 1)%Z ∧
         epsilon st' = JS.Math_max [(epsilon st * 0.995)%float; 0.01%float]) ∨
        (isTerminalState (grid st) (agentPos st') = Some false ∧
         episodeCount st' = episodeCount st ∧ epsilon st' = epsilon st)
    | _ => episodeCount st' = episodeCount st ∧ epsilon st' = epsilon st
    end ∧
    (c ≠ Reset → fle (epsilon st') (epsilon st)).
Proof.
  intros Hreach. destruct (reachable_epsilon st Hreach) as [n Hn].
  pose proof (epsilonAfter_ok n) as Hok. rewrite <- Hn in Hok.
  unfold rateOK in Hok.
  apply andb_prop in Hok as [[Hlo Hhi]%andb_prop Hdecay].
  assert (fle (epsilon st) (epsilon st)) as Hrefl.
  { apply fle_refl. by destruct (fle_number _ _ Hlo). }
  split; [done|]. split; [done|]. split; [done|].
  intros c st' Hexec. pose proof (exec_epsilon c st st' Hexec) as Hc.
  split; [exact Hc|]. intros Hne.
  destruct c; try done;
    try (match type of Hc with _ ∧ _ => destruct Hc as [_ Heps] end; by rewrite Heps).
  destruct Hc as [[_ ->]|[(_ & _ & ->)|(_ & _ & ->)]]; done.
Qed.

Lemma epsilon_schedule_witness :
  fle 0.01 (epsilon besideSkull) ∧ fle (epsilon besideSkull) 0.2 ∧
  episodeCount afterSkull = (episodeCount besideSkull + 1)%Z ∧
  epsilon afterSkull = JS.Math_max [(epsilon besideSkull * 0.995)%float; 0.01%float] ∧
  fle (epsilon afterSkull) (epsilon besideSkull).
Proof.
  destruct (epsilon_schedule besideSkull reachable_besideSkull)
    as (_ & Hlo & Hhi & Hexec).
  destruct (Hexec (Step downDraw) afterSkull) as [Hstep Hfall];
    [vm_compute; reflexivity|].
  split; [exact Hlo|]. split; [exact Hhi|].
  destruct Hstep as [[Hgrid _]|[(_ & Hcount & Heps)|(Hterm & _)]].
  - vm_compute in Hgrid. discriminate.
  - split; [exact Hcount|]. split; [exact Heps|]. apply Hfall. discriminate.
  - vm_compute in Hterm. discriminate.
Defined.

(** ** Moves *)

(** X23 ([getNextPosition], lines 80-89): from a cell of the grid a move
    changes the position by at most one cell, and a move that changed the
    position is undone by the opposite action. *)
Theorem getNextPosition_one_cell (pos : Position) (a : Action) :
  inBounds pos →
  (Z.abs ((getNextPosition pos a).1 - pos.1)
   + Z.abs ((getNextPosition pos a).2 - pos.2) ≤ 1)%Z ∧
  (getNextPosition pos a ≠ pos →
     getNextPosition (getNextPosition pos a) (opposite a) = pos).
Proof.
  destruct pos as [x y]. unfold inBounds. simpl. intros [Hx Hy].
  destruct a; simpl; unfold GRID_SIZE in *; (split; [lia|]); intros Hmove.
  - assert (Z.max (x - 1) 0 ≠ x)%Z by (intros E; apply Hmove; by rewrite E).
    f_equal. lia.
  - assert (Z.min (x + 1) (5 - 1) ≠ x)%Z by (intros E; apply Hmove; by rewrite E).
    f_equal. lia.
  - assert (Z.max (y - 1) 0 ≠ y)%Z by (intros E; apply Hmove; by rewrite E).
    f_equal. lia.
  - assert (Z.min (y + 1) (5 - 1) ≠ y)%Z by (intros E; apply Hmove; by rewrite E).
    f_equal. lia.
Qed.

Lemma getNextPosition_one_cell_witness :
  (Z.abs ((getNextPosition (2, 3)%Z Left).1 - 2)
   + Z.abs ((getNextPosition (2, 3)%Z Left).2 - 3) ≤ 1)%Z ∧
  getNextPosition (getNextPosition (2, 3)%Z Left) Right = (2, 3)%Z.
Proof.
  destruct (getNextPosition_one_cell (2, 3)%Z Left) as [Hone Hback].
  - unfold inBounds, GRID_SIZE. simpl. lia.
  - split; [exact Hone|]. apply Hback. vm_compute. discriminate.
Defined.

(** ** The end of an episode *)



